(** * useQuery: the asynchronous query lifecycle hook

    A shallow embedding of [label_studio/frontend/src/hooks/useQuery.ts].
    The source file holds two revisions of the hook.  The current one
    (statuses IDLE, LOADING, LOADED, HYDRATING, HYDRATED, ERROR; a
    try/catch around the transport call) is embedded at top level; the
    earlier one (four statuses, no error handling) lives in [Module Legacy].

    The reducer and the options merger are pure functions.  The
    coordinator ([request], the inner [call], [abort], [reset], the effect
    cleanup) mutates React refs and dispatches reducer actions; it is
    embedded by explicit state passing over a record [World] holding the
    refs and the reducer state.  An [await] on the transport splits [call]
    in two: [call] runs up to the await and records the suspended
    continuation in [pending]; [settle] resumes it once the environment
    settles the promise.  Every [dispatch] brings the render that React
    makes for the state update, and with it the assignment of line 123
    ([optionsRef.current = options]).  The microtask hops between the end
    of one [call] and the start of the next one inside a single [request]
    are taken as atomic. *)

From Stdlib Require Import DecimalString.
From stdpp Require Import gmap strings list fin_maps.

Local Open Scope string_scope.
#[local] Set Warnings "-register-all".

(** ** JavaScript values *)

(** Payloads, errors and query parameters are [any] in the source. *)
Inductive jsval : Type :=
| JUndefined
| JNull
| JBool (b : bool)
| JNum (z : Z)
| JStr (s : string)
| JObj (fields : list (string * jsval)).

(** ToBoolean: what [if (v)], [!v] and [a || b] test. *)
Definition truthy (v : jsval) : bool :=
  match v with
  | JUndefined | JNull => false
  | JBool b => b
  | JNum z => negb (Z.eqb z 0)
  | JStr s => negb (String.eqb s "")
  | JObj _ => true
  end.

Fixpoint assoc (k : string) (fields : list (string * jsval)) : option jsval :=
  match fields with
  | [] => None
  | (k', v) :: rest => if String.eqb k k' then Some v else assoc k rest
  end.

(** [v.k] for the two keys the hook reads ([error], [message]), neither of
    which lives on a built-in prototype.  [None] stands for the TypeError
    raised when [v] is [null] or [undefined]; primitives answer
    [undefined]. *)
Definition get_prop (v : jsval) (k : string) : option jsval :=
  match v with
  | JUndefined | JNull => None
  | JObj fields => Some (default JUndefined (assoc k fields))
  | _ => Some JUndefined
  end.

(** The TypeError object the engine throws for a property read on a
    nullish value (the message text is the engine's). *)
Definition type_error (k : string) : jsval :=
  JObj [("name", JStr "TypeError");
        ("message", JStr ("Cannot read properties of nullish value: " ++ k))].

(** ** The [in] operator

    [key in obj] asks whether [key] names a property of [obj], own or
    inherited.  The property names of the standard prototypes come from
    the language, not from this repository. *)
Definition object_prototype_keys : list string :=
  ["constructor"; "hasOwnProperty"; "isPrototypeOf"; "propertyIsEnumerable";
   "toLocaleString"; "toString"; "valueOf"; "__proto__";
   "__defineGetter__"; "__defineSetter__"; "__lookupGetter__";
   "__lookupSetter__"].

Definition array_prototype_keys : list string :=
  ["at"; "concat"; "copyWithin"; "entries"; "every"; "fill"; "filter";
   "find"; "findIndex"; "findLast"; "findLastIndex"; "flat"; "flatMap";
   "forEach"; "includes"; "indexOf"; "join"; "keys"; "lastIndexOf"; "map";
   "pop"; "push"; "reduce"; "reduceRight"; "reverse"; "shift"; "slice";
   "some"; "sort"; "splice"; "toReversed"; "toSorted"; "toSpliced";
   "unshift"; "values"; "with"].

Definition index_key (i : nat) : string :=
  NilEmpty.string_of_uint (Nat.to_uint i).

(** Property names of an array with [n] elements: its indices, [length],
    and what it inherits. *)
Definition array_keys (n : nat) : list string :=
  map index_key (seq 0 n) ++ ["length"] ++ array_prototype_keys
    ++ object_prototype_keys.

Definition has_key (k : string) (keys : list string) : bool :=
  existsb (String.eqb k) keys.

(** [key in [e0, ..., en-1]]: the elements play no part. *)
Definition in_array {A} (key : string) (elems : list A) : bool :=
  has_key key (array_keys (length elems)).

(** [key in obj] for a plain object with the given own keys. *)
Definition in_object (key : string) (own : list string) : bool :=
  has_key key (own ++ object_prototype_keys).

(** ** Statuses, actions and the reducer (lines 13-111) *)

Inductive QueryStatus : Type :=
| IDLE | LOADING | LOADED | HYDRATING | HYDRATED | ERROR.

(** The string each enum member evaluates to at run time. *)
Definition status_value (s : QueryStatus) : string :=
  match s with
  | IDLE => "IDLE" | LOADING => "LOADING" | LOADED => "LOADED"
  | HYDRATING => "HYDRATING" | HYDRATED => "HYDRATED" | ERROR => "ERROR"
  end.

Inductive ACTIONS : Type :=
| A_LOADING | A_LOADED | A_HYDRATING | A_HYDRATED | A_ERROR | A_RESET.

Definition action_value (a : ACTIONS) : string :=
  match a with
  | A_LOADING => "LOADING" | A_LOADED => "LOADED"
  | A_HYDRATING => "HYDRATING" | A_HYDRATED => "HYDRATED"
  | A_ERROR => "ERROR" | A_RESET => "RESET"
  end.

(** Own keys of the object a string enum compiles to. *)
Definition ACTIONS_keys : list string :=
  ["LOADING"; "LOADED"; "HYDRATING"; "HYDRATED"; "ERROR"; "RESET"].

Record QueryState : Type := mkState {
  status : QueryStatus;
  data : jsval;
  error : jsval;
}.

(** [payload] is optional in the source; a missing one reads [undefined]. *)
Record QueryAction : Type := mkAction {
  type : ACTIONS;
  payload : jsval;
}.

Definition initialState : QueryState :=
  {| status := IDLE; data := JNull; error := JNull |}.

Definition queryActions (k : ACTIONS) (state : QueryState)
    (action : QueryAction) : QueryState :=
  match k with
  | A_LOADING =>
      {| status := LOADING; data := data state; error := error state |}
  | A_HYDRATING =>
      {| status := HYDRATING; data := data state; error := error state |}
  | A_LOADED =>
      {| status := LOADED; data := payload action; error := error state |}
  | A_HYDRATED =>
      {| status := HYDRATED; data := payload action; error := error state |}
  | A_ERROR =>
      {| status := ERROR; data := data state; error := payload action |}
  | A_RESET => initialState
  end.

Definition queryReducer (state : QueryState) (action : QueryAction)
    : QueryState :=
  if in_object (action_value (type action)) ACTIONS_keys
  then queryActions (type action) state action
  else state.

(** ** Options and their merge (lines 3-7, 127-145) *)

(** An optional property: not there, there holding [undefined], or there
    with a value.  Object spread copies the last two alike. *)
Inductive field (A : Type) : Type :=
| Absent
| Undef
| Has (a : A).
Arguments Absent {A}.
Arguments Undef {A}.
Arguments Has {A} a.

(** Reading the property: [undefined] unless it has a value. *)
Definition read {A} (f : field A) : option A :=
  match f with Has a => Some a | _ => None end.

(** Truthiness of an object-valued optional property. *)
Definition given {A} (f : field A) : bool :=
  match f with Has _ => true | _ => false end.

(** Truthiness of an object-or-[undefined] value that was read. *)
Definition defined {A} (o : option A) : bool :=
  match o with Some _ => true | None => false end.

(** One key of [{ ...stored, ...incoming }]. *)
Definition spread_key {A} (stored incoming : field A) : field A :=
  match incoming with Absent => stored | _ => incoming end.

(** [{ ...a, ...b }] on records of query parameters; spreading
    [undefined] adds nothing. *)
Definition spread (a b : option (gmap string jsval)) : gmap string jsval :=
  default ∅ b ∪ default ∅ a.

(** [Omit<QueryOptions, 'hydrate' | 'skipInitialRequest'>] *)
Record HydrateOptions : Type := mkHydrate {
  hquery : field (gmap string jsval);
}.

Record QueryOptions : Type := mkOptions {
  query : field (gmap string jsval);
  skipInitialRequest : field bool;
  hydrate : field HydrateOptions;
}.

Definition no_options : QueryOptions :=
  {| query := Absent; skipInitialRequest := Absent; hydrate := Absent |}.

(** [o.hydrate?.query] *)
Definition hydrate_query (o : QueryOptions) : option (gmap string jsval) :=
  match read (hydrate o) with
  | Some h => read (hquery h)
  | None => None
  end.

(** The object [updateOptions] stores into [optionsRef.current], as a
    function of the stored and the incoming options. *)
Definition merge (stored options : QueryOptions) : QueryOptions :=
  {| query := Has (spread (read (query stored)) (read (query options)));
     skipInitialRequest :=
       spread_key (skipInitialRequest stored) (skipInitialRequest options);
     hydrate :=
       if given (hydrate options) || given (hydrate stored) then
         Has {| hquery :=
                  if defined (hydrate_query options)
                     || defined (hydrate_query stored)
                  then Has (spread (hydrate_query stored)
                                   (hydrate_query options))
                  else Undef |}
       else Undef |}.

(** ** The hook instance (lines 113-125) *)

(** The object handed to the transport,
    [{ ...queryOptions, signal, hydrate: withHydrate }]: the two fixed keys
    shadow query parameters of the same name. *)
Record TransportArgs : Type := mkArgs {
  params : gmap string jsval;
  signal : nat;
  hydrate_flag : bool;
}.

(** A [call] suspended at [await reqRef.current(...)]: the controller it
    created, its [withHydrate] argument and the [options] its enclosing
    [request] was given. *)
Record InFlight : Type := mkInFlight {
  token : nat;
  withHydrate : bool;
  req_options : option QueryOptions;
}.

(** The refs and reducer state of one hook instance.  Abort controllers
    are numbered in creation order.  [history], [fetches] and [rejected]
    are ghost logs: the status after each dispatch, the transport
    invocations, and the values with which a [request()] promise
    rejected. *)
Record World : Type := mkWorld {
  state : QueryState;
  optionsRef : QueryOptions;
  hookOptions : QueryOptions;
  mounted : bool;
  hasFetched : bool;
  abortRef : option nat;
  aborted : list nat;
  controllers : nat;
  pending : list InFlight;
  history : list QueryStatus;
  fetches : list TransportArgs;
  rejected : list jsval;
}.

Definition init (options : QueryOptions) : World :=
  {| state := initialState; optionsRef := options; hookOptions := options;
     mounted := true; hasFetched := false; abortRef := None; aborted := [];
     controllers := 0; pending := []; history := []; fetches := [];
     rejected := [] |}.

Definition set_optionsRef (o : QueryOptions) (w : World) : World :=
  mkWorld (state w) o (hookOptions w) (mounted w) (hasFetched w)
    (abortRef w) (aborted w) (controllers w) (pending w) (history w)
    (fetches w) (rejected w).

Definition set_mounted (b : bool) (w : World) : World :=
  mkWorld (state w) (optionsRef w) (hookOptions w) b (hasFetched w)
    (abortRef w) (aborted w) (controllers w) (pending w) (history w)
    (fetches w) (rejected w).

Definition set_hasFetched (b : bool) (w : World) : World :=
  mkWorld (state w) (optionsRef w) (hookOptions w) (mounted w) b
    (abortRef w) (aborted w) (controllers w) (pending w) (history w)
    (fetches w) (rejected w).

Definition set_aborted (l : list nat) (w : World) : World :=
  mkWorld (state w) (optionsRef w) (hookOptions w) (mounted w) (hasFetched w)
    (abortRef w) l (controllers w) (pending w) (history w)
    (fetches w) (rejected w).

Definition set_pending (l : list InFlight) (w : World) : World :=
  mkWorld (state w) (optionsRef w) (hookOptions w) (mounted w) (hasFetched w)
    (abortRef w) (aborted w) (controllers w) l (history w)
    (fetches w) (rejected w).

Definition add_rejected (e : jsval) (w : World) : World :=
  mkWorld (state w) (optionsRef w) (hookOptions w) (mounted w) (hasFetched w)
    (abortRef w) (aborted w) (controllers w) (pending w) (history w)
    (fetches w) (rejected w ++ [e]).

(** Each render re-assigns [optionsRef.current = options] (line 123). *)
Definition render (w : World) : World :=
  set_optionsRef (hookOptions w) w.

(** [dispatch(action)]: the reducer runs on the current state, and the
    state update makes React render the component again, which runs
    line 123.  The render is taken at the dispatch itself, as React does
    for an update made outside one of its batches (the promise
    continuations of lines 218 and 221). *)
Definition dispatch (action : QueryAction) (w : World) : World :=
  let s := queryReducer (state w) action in
  render
    (mkWorld s (optionsRef w) (hookOptions w) (mounted w) (hasFetched w)
       (abortRef w) (aborted w) (controllers w) (pending w)
       (history w ++ [status s]) (fetches w) (rejected w)).

(** [updateOptions(options)]; a missing argument defaults to [{}].  The
    [force] flag only asks React for another render and is left out. *)
Definition updateOptions (options : option QueryOptions) (w : World) : World :=
  set_optionsRef (merge (optionsRef w) (default no_options options)) w.

(** ** The coordinator (lines 194-258) *)

(** [{ ...queryOptions, signal: abortRef.current.signal, hydrate }] *)
Definition transport_args (queryOptions : option (gmap string jsval))
    (sig : nat) (hyd : bool) : TransportArgs :=
  mkArgs (delete "hydrate" (delete "signal" (default ∅ queryOptions))) sig hyd.

(** [abortRef.current = new AbortController()] followed by the transport
    invocation, up to the [await]. *)
Definition fetch (hyd : bool) (options : option QueryOptions)
    (queryOptions : option (gmap string jsval)) (w : World) : World :=
  let n := controllers w in
  mkWorld (state w) (optionsRef w) (hookOptions w) (mounted w) (hasFetched w)
    (Some n) (aborted w) (S n)
    (pending w ++ [mkInFlight n hyd options]) (history w)
    (fetches w ++ [transport_args queryOptions n hyd])
    (rejected w).

(** [call(withHydrate)] up to its first suspension.  The boolean tells
    whether it suspended at the [await] ([true]) or returned at the guard
    of line 201 ([false]). *)
Definition call (hyd : bool) (options : option QueryOptions) (w : World)
    : World * bool :=
  let w1 := updateOptions options w in
  let query := read (query (optionsRef w1)) in
  let hydrate := hydrate_query (optionsRef w1) in
  if negb (mounted w1) || (hyd && negb (defined hydrate)) then (w1, false)
  else
    let w2 := dispatch (mkAction (if hyd then A_HYDRATING else A_LOADING)
                                 JUndefined) w1 in
    (fetch hyd options (if hyd then hydrate else query) w2, true).

(** What follows [await call()] in [request] (lines 228-231). *)
Definition after_primary (options : option QueryOptions) (w : World) : World :=
  if given (hydrate (optionsRef w)) then fst (call true options w) else w.

(** The block the guard of [request] protects (lines 226-231), up to the
    first suspension. *)
Definition request_block (options : option QueryOptions) (w : World) : World :=
  let '(w1, suspended) := call false options w in
  if suspended then w1 else after_primary options w1.

(** [request(options)] through a closure that captured [state.status] as
    [captured] (the callback is rebuilt whenever the status changes). *)
Definition request (captured : QueryStatus) (options : option QueryOptions)
    (w : World) : World :=
  if in_array (status_value captured) [IDLE; LOADED; HYDRATED]
  then request_block options w
  else w.

(** A settled transport promise. *)
Inductive Settlement : Type :=
| Resolve (v : jsval)
| Reject (e : jsval).

(** The [catch] block (lines 219-222).  [Some e]: [e] escapes [call]. *)
Definition on_catch (err : jsval) (w : World) : World * option jsval :=
  if negb (mounted w) then (w, None)
  else match get_prop err "message" with
       | Some m => (dispatch (mkAction A_ERROR m) w, None)
       | None => (w, Some (type_error "message"))
       end.

(** The rest of [call] once the awaited promise has settled
    (lines 209-222). *)
Definition call_settled (hyd : bool) (r : Settlement) (w : World)
    : World * option jsval :=
  match r with
  | Reject e => on_catch e w
  | Resolve d =>
      match get_prop d "error" with
      | None => on_catch (type_error "error") w
      | Some e =>
          if truthy e then on_catch e w
          else if negb (mounted w) then (w, None)
          else (dispatch (mkAction (if hyd then A_HYDRATED else A_LOADED) d)
                         (set_hasFetched true w), None)
      end
  end.

Definition find_call (tok : nat) (l : list InFlight) : option InFlight :=
  find (fun c => Nat.eqb (token c) tok) l.

Definition drop_call (tok : nat) (l : list InFlight) : list InFlight :=
  filter (fun c => negb (Nat.eqb (token c) tok)) l.

(** The environment settles the promise awaited by the call that created
    controller [tok]: [call] finishes and its [request] carries on. *)
Definition settle (tok : nat) (r : Settlement) (w : World) : World :=
  match find_call tok (pending w) with
  | None => w
  | Some c =>
      let w0 := set_pending (drop_call tok (pending w)) w in
      match call_settled (withHydrate c) r w0 with
      | (w1, Some e) => add_rejected e w1
      | (w1, None) =>
          if withHydrate c then w1 else after_primary (req_options c) w1
      end
  end.

(** [abort()] *)
Definition abort (w : World) : World :=
  match abortRef w with
  | Some tok => set_aborted (aborted w ++ [tok]) w
  | None => w
  end.

(** [reset()] *)
Definition reset (w : World) : World :=
  let w1 := abort w in
  if negb (mounted w1) then w1
  else dispatch (mkAction A_RESET JUndefined) (set_hasFetched false w1).

(** The mount effect's body and its cleanup (lines 250-258). *)
Definition mount_effect (w : World) : World :=
  match skipInitialRequest (optionsRef w) with
  | Has true => w
  | _ => request (status (state w)) None w
  end.

Definition cleanup (w : World) : World :=
  set_mounted false (abort w).

(** ** The earlier revision of the hook (lines 271-449) *)

Module Legacy.

Inductive QueryStatus : Type :=
| IDLE | LOADING | LOADED | HYDRATED.

Definition status_value (s : QueryStatus) : string :=
  match s with
  | IDLE => "IDLE" | LOADING => "LOADING" | LOADED => "LOADED"
  | HYDRATED => "HYDRATED"
  end.

Inductive ACTIONS : Type :=
| A_LOADING | A_LOADED | A_HYDRATED | A_RESET.

Definition action_value (a : ACTIONS) : string :=
  match a with
  | A_LOADING => "LOADING" | A_LOADED => "LOADED"
  | A_HYDRATED => "HYDRATED" | A_RESET => "RESET"
  end.

Definition ACTIONS_keys : list string :=
  ["LOADING"; "LOADED"; "HYDRATED"; "RESET"].

Record QueryState : Type := mkState {
  status : QueryStatus;
  data : jsval;
}.

Record QueryAction : Type := mkAction {
  type : ACTIONS;
  payload : jsval;
}.

Definition initialState : QueryState :=
  {| status := IDLE; data := JNull |}.

(** Line 337 gives the LOADING action the status LOADED. *)
Definition queryActions (k : ACTIONS) (state : QueryState)
    (action : QueryAction) : QueryState :=
  match k with
  | A_LOADING => {| status := LOADED; data := data state |}
  | A_LOADED => {| status := LOADED; data := payload action |}
  | A_HYDRATED => {| status := HYDRATED; data := payload action |}
  | A_RESET => initialState
  end.

Definition queryReducer (state : QueryState) (action : QueryAction)
    : QueryState :=
  if in_object (action_value (type action)) ACTIONS_keys
  then queryActions (type action) state action
  else state.

Record QueryOptions : Type := mkOptions {
  query : field (gmap string jsval);
  pause : field bool;
  hydrate : field HydrateOptions;
}.

Definition no_options : QueryOptions :=
  {| query := Absent; pause := Absent; hydrate := Absent |}.

(** The [query] key of [{ ...o.hydrate }]. *)
Definition hydrate_key (o : QueryOptions) : field (gmap string jsval) :=
  match hydrate o with
  | Has h => hquery h
  | _ => Absent
  end.

(** Lines 380-384: plain spreads, no key-by-key merge of the maps. *)
Definition merge (stored options : QueryOptions) : QueryOptions :=
  {| query := spread_key (query stored) (query options);
     pause := spread_key (pause stored) (pause options);
     hydrate :=
       if given (hydrate options) || given (hydrate stored) then
         Has {| hquery := spread_key (hydrate_key stored)
                                     (hydrate_key options) |}
       else Undef |}.

(** [{ ...opts, signal, hydrate: withHydrate ? hydrate : undefined }] *)
Record TransportArgs : Type := mkArgs {
  arg_query : field (gmap string jsval);
  arg_pause : field bool;
  signal : nat;
  arg_hydrate : option HydrateOptions;
}.

Record InFlight : Type := mkInFlight {
  token : nat;
  withHydrate : bool;
  req_options : option QueryOptions;
}.

Record World : Type := mkWorld {
  state : QueryState;
  optionsRef : QueryOptions;
  hookOptions : QueryOptions;
  mounted : bool;
  hasFetched : bool;
  abortRef : option nat;
  aborted : list nat;
  controllers : nat;
  pending : list InFlight;
  history : list QueryStatus;
  fetches : list TransportArgs;
  rejected : list jsval;
}.

Definition init (options : QueryOptions) : World :=
  {| state := initialState; optionsRef := options; hookOptions := options;
     mounted := true; hasFetched := false; abortRef := None; aborted := [];
     controllers := 0; pending := []; history := []; fetches := [];
     rejected := [] |}.

Definition set_optionsRef (o : QueryOptions) (w : World) : World :=
  mkWorld (state w) o (hookOptions w) (mounted w) (hasFetched w)
    (abortRef w) (aborted w) (controllers w) (pending w) (history w)
    (fetches w) (rejected w).

Definition set_hasFetched (b : bool) (w : World) : World :=
  mkWorld (state w) (optionsRef w) (hookOptions w) (mounted w) b
    (abortRef w) (aborted w) (controllers w) (pending w) (history w)
    (fetches w) (rejected w).

Definition set_aborted (l : list nat) (w : World) : World :=
  mkWorld (state w) (optionsRef w) (hookOptions w) (mounted w)
    (hasFetched w) (abortRef w) l (controllers w) (pending w) (history w)
    (fetches w) (rejected w).

Definition set_pending (l : list InFlight) (w : World) : World :=
  mkWorld (state w) (optionsRef w) (hookOptions w) (mounted w)
    (hasFetched w) (abortRef w) (aborted w) (controllers w) l (history w)
    (fetches w) (rejected w).

Definition add_rejected (e : jsval) (w : World) : World :=
  mkWorld (state w) (optionsRef w) (hookOptions w) (mounted w)
    (hasFetched w) (abortRef w) (aborted w) (controllers w) (pending w)
    (history w) (fetches w) (rejected w ++ [e]).

Definition render (w : World) : World :=
  set_optionsRef (hookOptions w) w.

(** As in the current revision, the update brings a render (line 375).
    The component is taken to be on screen: what React does with an
    update that arrives after it has unmounted the component is not
    modelled. *)
Definition dispatch (action : QueryAction) (w : World) : World :=
  let s := queryReducer (state w) action in
  render
    (mkWorld s (optionsRef w) (hookOptions w) (mounted w) (hasFetched w)
       (abortRef w) (aborted w) (controllers w) (pending w)
       (history w ++ [status s]) (fetches w) (rejected w)).

Definition updateOptions (options : option QueryOptions) (w : World)
    : World :=
  set_optionsRef (merge (optionsRef w) (default no_options options)) w.

Definition fetch (hyd : bool) (options : option QueryOptions) (w : World)
    : World :=
  let n := controllers w in
  let o := optionsRef w in
  mkWorld (state w) o (hookOptions w) (mounted w) (hasFetched w)
    (Some n) (aborted w) (S n)
    (pending w ++ [mkInFlight n hyd options]) (history w)
    (fetches w ++
       [mkArgs (query o) (pause o) n
               (if hyd then read (hydrate o) else None)])
    (rejected w).

(** [call(withHydrate)] up to its first suspension (lines 388-399). *)
Definition call (hyd : bool) (options : option QueryOptions) (w : World)
    : World * bool :=
  let w1 := updateOptions options w in
  if negb (mounted w1) then (w1, false)
  else (fetch hyd options (dispatch (mkAction A_LOADING JUndefined) w1),
        true).

Definition after_primary (options : option QueryOptions) (w : World)
    : World :=
  if given (hydrate (optionsRef w)) then fst (call true options w) else w.

Definition request_block (options : option QueryOptions) (w : World)
    : World :=
  let '(w1, suspended) := call false options w in
  if suspended then w1 else after_primary options w1.

Definition request (captured : QueryStatus) (options : option QueryOptions)
    (w : World) : World :=
  if in_array (status_value captured) [IDLE; LOADED; HYDRATED]
  then request_block options w
  else w.

(** The rest of [call] (lines 399-404); there is no [catch]: a rejection
    leaves [call] as an exception. *)
Definition call_settled (hyd : bool) (r : Settlement) (w : World)
    : World * option jsval :=
  match r with
  | Reject e => (w, Some e)
  | Resolve d =>
      if negb (mounted w) then (w, None)
      else (dispatch (mkAction (if hyd then A_HYDRATED else A_LOADED) d)
                     (set_hasFetched true w), None)
  end.

Definition find_call (tok : nat) (l : list InFlight) : option InFlight :=
  find (fun c => Nat.eqb (token c) tok) l.

Definition drop_call (tok : nat) (l : list InFlight) : list InFlight :=
  filter (fun c => negb (Nat.eqb (token c) tok)) l.

Definition settle (tok : nat) (r : Settlement) (w : World) : World :=
  match find_call tok (pending w) with
  | None => w
  | Some c =>
      let w0 := set_pending (drop_call tok (pending w)) w in
      match call_settled (withHydrate c) r w0 with
      | (w1, Some e) => add_rejected e w1
      | (w1, None) =>
          if withHydrate c then w1 else after_primary (req_options c) w1
      end
  end.

Definition abort (w : World) : World :=
  match abortRef w with
  | Some tok => set_aborted (aborted w ++ [tok]) w
  | None => w
  end.

Definition reset (w : World) : World :=
  let w1 := abort w in
  if negb (mounted w1) then w1
  else dispatch (mkAction A_RESET JUndefined) (set_hasFetched false w1).

Definition mount_effect (w : World) : World :=
  match pause (optionsRef w) with
  | Has true => w
  | _ => request (status (state w)) None w
  end.

(** The cleanup aborts but leaves [mounted] alone (lines 434-436). *)
Definition cleanup (w : World) : World := abort w.

(** The snapshot the earlier hook returns (lines 439-445); [options] in
    the [hydrated] flag is the hook's own argument. *)
Record Snapshot : Type := mkSnapshot {
  loading : bool;
  loaded : bool;
  hydrated : bool;
  snap_hasFetched : bool;
  snap_data : jsval;
}.

Definition is_status (s t : QueryStatus) : bool :=
  String.eqb (status_value s) (status_value t).

Definition facade (w : World) : Snapshot :=
  let s := status (state w) in
  {| loading := is_status s LOADING;
     loaded := is_status s LOADED;
     hydrated := is_status s HYDRATED
                 || (is_status s LOADED && negb (given (hydrate (hookOptions w))));
     snap_hasFetched := hasFetched w;
     snap_data := data (state w) |}.

(** What the earlier hook can be asked to do; [EvEnter] is a [request]
    past its guard. *)
Inductive Event : Type :=
| EvRequest (captured : QueryStatus) (options : option QueryOptions)
| EvEnter (options : option QueryOptions)
| EvDeclare (spec : QueryOptions)
| EvSettle (tok : nat) (r : Settlement)
| EvAbort
| EvReset
| EvRender
| EvCleanup.

Definition step (w : World) (ev : Event) : World :=
  match ev with
  | EvRequest captured options => request captured options w
  | EvEnter options => request_block options w
  | EvDeclare spec => updateOptions (Some spec) w
  | EvSettle tok r => settle tok r w
  | EvAbort => abort w
  | EvReset => reset w
  | EvRender => render w
  | EvCleanup => cleanup w
  end.

Definition run (evs : list Event) (w : World) : World := foldl step w evs.

End Legacy.

(** ** Runs of the hook *)

(** What the hook can be asked to do, by its caller, by the transport and
    by React.  [EvEnter] stands for a [request] that got past its guard. *)
Inductive Event : Type :=
| EvRequest (captured : QueryStatus) (options : option QueryOptions)
| EvEnter (options : option QueryOptions)
| EvDeclare (spec : QueryOptions)
| EvSettle (tok : nat) (r : Settlement)
| EvAbort
| EvReset
| EvRender
| EvCleanup.

Definition step (w : World) (ev : Event) : World :=
  match ev with
  | EvRequest captured options => request captured options w
  | EvEnter options => request_block options w
  | EvDeclare spec => updateOptions (Some spec) w
  | EvSettle tok r => settle tok r w
  | EvAbort => abort w
  | EvReset => reset w
  | EvRender => render w
  | EvCleanup => cleanup w
  end.

Definition run (evs : list Event) (w : World) : World := foldl step w evs.

(** The transport calling [updateOptions] while its promise is pending. *)
Definition declare (specs : list QueryOptions) (w : World) : World :=
  foldl (fun w o => updateOptions (Some o) w) w specs.

(** Controllers are numbered as they are created, so no call in flight
    carries a number still to come. *)
Definition fresh (w : World) : bool :=
  forallb (fun c => Nat.ltb (token c) (controllers w)) (pending w).

(** What the [try] block throws once the promise has settled, if anything
    (lines 209-213). *)
Definition thrown (r : Settlement) : option jsval :=
  match r with
  | Reject e => Some e
  | Resolve d =>
      match get_prop d "error" with
      | None => Some (type_error "error")
      | Some e => if truthy e then Some e else None
      end
  end.

(** The payload gets through line 211: reading [.error] works and the
    value read is falsy. *)
Definition succeeds (d : jsval) : bool :=
  match get_prop d "error" with
  | Some e => negb (truthy e)
  | None => false
  end.

(** The two tests between the end of phase 1 and the second transport
    call, for a mounted hook: line 229, then line 201 after [call(true)]
    has merged the request's options once more. *)
Definition hydration_due (options : option QueryOptions) (w : World) : bool :=
  given (hydrate (optionsRef w))
  && defined (hydrate_query (optionsRef (updateOptions options w))).

(** The same two tests where [request] reaches them after a settled
    primary call: the dispatch of line 218 or 221 has brought a render, so
    line 229 reads the hook's own argument and [call(true)] merges the
    request's options into that. *)
Definition hydration_wanted (options : option QueryOptions) (w : World)
    : bool :=
  given (hydrate (hookOptions w))
  && defined (hydrate_query
                (merge (hookOptions w) (default no_options options))).

(** Events that touch the stored options only: the transport declaring
    options, and renders. *)
Definition is_options_event (ev : Event) : bool :=
  match ev with
  | EvDeclare _ | EvRender => true
  | _ => false
  end.

(** The events that go through the hook's own entry points: everything
    but a [request] taken past its guard. *)
Definition is_public (ev : Event) : bool :=
  match ev with
  | EvEnter _ => false
  | _ => true
  end.

(** The hook mounted with the given options: first render, then the mount
    effect. *)
Definition mounted_hook (options : QueryOptions) : World :=
  mount_effect (init options).

(** ** Predicates for the properties of runs *)

(** [abortRef] holds the controller of the latest transport call. *)
Definition latest_controller (w : World) : Prop :=
  abortRef w = signal <$> last (fetches w).

(** How status, data and [hasFetched] hang together. *)
Definition state_coherent (w : World) : Prop :=
  (status (state w) = IDLE → state w = initialState ∧ hasFetched w = false) ∧
  (hasFetched w = true ↔ data (state w) ≠ JNull) ∧
  data (state w) ≠ JUndefined.

(** Nothing was ever fetched, stored or aborted. *)
Definition untouched (w : World) : Prop :=
  state w = initialState ∧ fetches w = [] ∧ pending w = [] ∧
  hasFetched w = false ∧ abortRef w = None ∧ aborted w = [] ∧
  Forall (eq IDLE) (history w).

(** [q?.[k]] on a query that may be missing. *)
Definition param (k : string) (q : option (gmap string jsval)) : option jsval :=
  match q with
  | Some m => m !! k
  | None => None
  end.

(** What a merge never takes away. *)
Definition extends (a b : QueryOptions) : Prop :=
  (∀ k, is_Some (param k (read (query a))) →
        is_Some (param k (read (query b)))) ∧
  (given (hydrate a) = true → given (hydrate b) = true) ∧
  (∀ k, is_Some (param k (hydrate_query a)) →
        is_Some (param k (hydrate_query b))).

(** The earlier hook is still mounted and its status is not LOADING. *)
Definition legacy_alive (w : Legacy.World) : Prop :=
  Legacy.mounted w = true ∧
  Legacy.status (Legacy.state w) ≠ Legacy.LOADING.

(** The fetches a history announces: [false] for each LOADING, [true] for
    each HYDRATING. *)
Definition announced (h : list QueryStatus) : list bool :=
  omap (fun s => match s with
                 | LOADING => Some false
                 | HYDRATING => Some true
                 | _ => None
                 end) h.

(** The transport calls made are the ones the history announces. *)
Definition in_lockstep (w : World) : Prop :=
  map hydrate_flag (fetches w) = announced (history w).

(** ** Sample inputs *)

Definition page (n : Z) : QueryOptions :=
  {| query := Has {["page" := JNum n]}; skipInitialRequest := Absent;
     hydrate := Absent |}.

Definition counted (n : Z) : jsval := JObj [("count", JNum n)].

Definition boom : jsval :=
  JObj [("name", JStr "Error"); ("message", JStr "boom")].

(** The options of the usage example in the hook's doc comment
    (lines 176-184). *)
Definition projects_options : QueryOptions :=
  {| query := Has (<["page" := JNum 1]> {["page_size" := JNum 30]});
     skipInitialRequest := Has true;
     hydrate := Has {| hquery := Absent |} |}.

Definition ids_options : QueryOptions :=
  {| query := Absent; skipInitialRequest := Absent;
     hydrate := Has {| hquery := Has {["ids" := JStr "1,2,3"]} |} |}.

Definition empty_hydrate : QueryOptions :=
  {| query := Absent; skipInitialRequest := Absent;
     hydrate := Has {| hquery := Absent |} |}.

(** Two requests past the guard, one after the other, neither settled. *)
Definition two_requests : World :=
  request_block (Some (page 2)) (request_block (Some (page 1)) (init no_options)).

(** * Properties *)

(** ** The guard of [request] *)

Lemma guard_never_passes (s : QueryStatus) :
  in_array (status_value s) [IDLE; LOADED; HYDRATED] = false.
Proof. destruct s; reflexivity. Qed.

Lemma legacy_guard_never_passes (s : Legacy.QueryStatus) :
  in_array (Legacy.status_value s)
    [Legacy.IDLE; Legacy.LOADED; Legacy.HYDRATED] = false.
Proof. destruct s; reflexivity. Qed.

(** The reducer's own membership test, on the enum object, does pass. *)
Lemma action_recognised (a : ACTIONS) :
  in_object (action_value a) ACTIONS_keys = true.
Proof. destruct a; reflexivity. Qed.

Lemma queryReducer_eq (s : QueryState) (a : QueryAction) :
  queryReducer s a = queryActions (type a) s a.
Proof. unfold queryReducer. by rewrite action_recognised. Qed.

Lemma legacy_queryReducer_eq (s : Legacy.QueryState) (a : Legacy.QueryAction) :
  Legacy.queryReducer s a = Legacy.queryActions (Legacy.type a) s a.
Proof.
  unfold Legacy.queryReducer. by destruct (Legacy.type a).
Qed.

(** C2 (fails on the code): [request] tests [state.status in [IDLE, LOADED,
    HYDRATED]], which asks whether the status string names a property of
    the array.  It never does, so at every status, in both revisions,
    [request] returns without merging options, dispatching or calling the
    transport: the world is left as it was. *)
Theorem request_never_fetches :
  (∀ captured options w, request captured options w = w) ∧
  (∀ captured options w, Legacy.request captured options w = w).
Proof.
  split; intros captured options w.
  - unfold request. by rewrite guard_never_passes.
  - unfold Legacy.request. by rewrite legacy_guard_never_passes.
Qed.

(** ** The reducer *)

(** The current revision's LOADING action, at every state. *)
Lemma start_transition (s : QueryState) (p : jsval) :
  queryReducer s (mkAction A_LOADING p)
  = {| status := LOADING; data := data s; error := error s |}.
Proof. by rewrite queryReducer_eq. Qed.

(** C8 (fails on the earlier revision): there the LOADING action yields
    status LOADED, at every state; data is kept. *)
Theorem legacy_start_gives_LOADED (s : Legacy.QueryState) (p : jsval) :
  Legacy.queryReducer s (Legacy.mkAction Legacy.A_LOADING p)
  = {| Legacy.status := Legacy.LOADED; Legacy.data := Legacy.data s |}.
Proof. by rewrite legacy_queryReducer_eq. Qed.

(** C9: the ERROR action keeps [data]: the new state has status ERROR, the
    payload as [error] and the data it had; RESET is the action that
    returns data to [null]. *)
Theorem error_keeps_data (s : QueryState) (p : jsval) :
  data (queryReducer s (mkAction A_ERROR p)) = data s ∧
  status (queryReducer s (mkAction A_ERROR p)) = ERROR ∧
  error (queryReducer s (mkAction A_ERROR p)) = p ∧
  data (queryReducer s (mkAction A_RESET p)) = JNull.
Proof. rewrite !queryReducer_eq. done. Qed.

(** ** The options merger *)

Lemma spread_again (a b : option (gmap string jsval)) :
  spread (Some (spread a b)) b = spread a b.
Proof.
  unfold spread. simpl.
  by rewrite (assoc_L (∪)), (idemp_L (∪)).
Qed.

Lemma spread_key_again {A} (a b : field A) :
  spread_key (spread_key a b) b = spread_key a b.
Proof. by destruct b. Qed.

Lemma merge_again (a b : QueryOptions) : merge (merge a b) b = merge a b.
Proof.
  destruct a as [qa sa ha], b as [qb sb hb]. unfold merge; simpl.
  rewrite spread_again, spread_key_again. f_equal.
  unfold hydrate_query; simpl.
  destruct hb as [| |[[| |mb]]], ha as [| |[[| |ma]]]; simpl;
    rewrite ?spread_again; try done;
    unfold spread; simpl; by rewrite ?(left_id_L ∅ (∪)), ?(right_id_L ∅ (∪)).
Qed.

Lemma legacy_merge_again (a b : Legacy.QueryOptions) :
  Legacy.merge (Legacy.merge a b) b = Legacy.merge a b.
Proof.
  destruct a as [qa pa ha], b as [qb pb hb]. unfold Legacy.merge; simpl.
  rewrite !spread_key_again. f_equal.
  unfold Legacy.hydrate_key; simpl.
  destruct hb as [| |[[| |mb]]], ha as [| |[[| |ma]]]; by simpl.
Qed.

(** C5: merging the same incoming options a second time changes nothing,
    for all stored and incoming options, in both revisions of
    [updateOptions]. *)
Theorem merge_idempotent :
  (∀ a b : QueryOptions, merge (merge a b) b = merge a b) ∧
  (∀ a b : Legacy.QueryOptions,
     Legacy.merge (Legacy.merge a b) b = Legacy.merge a b).
Proof. split; [apply merge_again | apply legacy_merge_again]. Qed.

(** C10: the merged options always hold a query map, empty when neither
    side supplies one; hence merging empty incoming options into options
    without a query does not give those options back. *)
Theorem merge_query_present (stored incoming : QueryOptions) :
  (∃ m, query (merge stored incoming) = Has m ∧
        (read (query stored) = None → read (query incoming) = None →
         m = ∅)) ∧
  (read (query stored) = None → merge stored no_options ≠ stored).
Proof.
  split.
  - eexists; split; [reflexivity|].
    intros -> ->. unfold spread; simpl. by rewrite (left_id_L ∅ (∪)).
  - intros Hq Heq. apply (f_equal query) in Heq. simpl in Heq.
    rewrite <- Heq in Hq. discriminate.
Qed.

Lemma merge_query_present_witness :
  (∃ m, query (merge no_options no_options) = Has m ∧
        (read (query no_options) = None → read (query no_options) = None →
         m = ∅)) ∧
  (read (query no_options) = None → merge no_options no_options ≠ no_options).
Proof. apply (merge_query_present no_options no_options). Defined.

(** ** Calls in flight *)

#[local] Arguments merge : simpl never.
#[local] Arguments transport_args : simpl never.

Section InFlightList.
Variable tok : nat.
Variable l : list InFlight.
Hypothesis other : ∀ c, c ∈ l → token c ≠ tok.

Lemma drop_call_None : drop_call tok l = l.
Proof using other.
  induction l as [|c l' IH]; [done|].
  unfold drop_call in *. rewrite filter_cons.
  destruct (decide _) as [Hd|Hd].
  - f_equal. apply IH. intros c' Hc'. apply other. by right.
  - exfalso. apply Hd, Is_true_true, negb_true_iff, Nat.eqb_neq.
    apply other. by left.
Qed.

Lemma find_call_snoc c : token c = tok → find_call tok (l ++ [c]) = Some c.
Proof using other.
  intros Hc. induction l as [|c' l' IH]; simpl.
  - by rewrite (proj2 (Nat.eqb_eq _ _) Hc).
  - destruct (Nat.eqb_spec (token c') tok) as [Heq|Hne].
    + exfalso. eapply other; [left|done].
    + apply IH. intros c'' Hc''. apply other. by right.
Qed.

Lemma drop_call_snoc c : token c = tok → drop_call tok (l ++ [c]) = l.
Proof using other.
  intros Hc. unfold drop_call. rewrite filter_app.
  fold (drop_call tok l). rewrite drop_call_None.
  rewrite filter_cons, filter_nil.
  destruct (decide _) as [Hd|Hd]; [|by rewrite app_nil_r].
  exfalso. by apply Is_true_true, negb_true_iff, Nat.eqb_neq in Hd.
Qed.
End InFlightList.

Lemma find_call_app tok l l' c :
  find_call tok l = Some c → find_call tok (l ++ l') = Some c.
Proof.
  unfold find_call. induction l as [|x l IH]; simpl; [done|].
  destruct (Nat.eqb (token x) tok); [done|apply IH].
Qed.

Lemma find_call_drop tok tok' l :
  tok ≠ tok' → find_call tok (drop_call tok' l) = find_call tok l.
Proof.
  intros Hne. unfold find_call, drop_call.
  induction l as [|x l IH]; [done|]. rewrite filter_cons.
  destruct (decide _) as [Hd|Hd]; simpl.
  - destruct (Nat.eqb (token x) tok); [done|apply IH].
  - assert (token x = tok') as Hx.
    { apply Nat.eqb_eq. destruct (Nat.eqb (token x) tok'); [done|].
      exfalso. by apply Hd. }
    rewrite (proj2 (Nat.eqb_neq (token x) tok)) by congruence. apply IH.
Qed.

(** ** Hydrate queries under merging *)

Lemma hydrate_query_given o :
  defined (hydrate_query o) = true → given (hydrate o) = true.
Proof. unfold hydrate_query. by destruct (hydrate o). Qed.

Lemma merge_keeps_hydrate_query a b :
  defined (hydrate_query a) = true →
  defined (hydrate_query (merge a b)) = true.
Proof.
  intros H. pose proof (hydrate_query_given _ H) as Hg.
  unfold merge, hydrate_query at 1; simpl.
  by rewrite Hg, H, !orb_true_r.
Qed.

Lemma hydrate_query_merge a b :
  hydrate_query (merge a b)
  = if defined (hydrate_query b) || defined (hydrate_query a)
    then Some (spread (hydrate_query a) (hydrate_query b))
    else None.
Proof.
  unfold merge, hydrate_query at 1. simpl.
  destruct (hydrate_query b) eqn:Hb; simpl.
  - pose proof (hydrate_query_given b) as Hg. rewrite Hb in Hg.
    by rewrite Hg.
  - destruct (hydrate_query a) eqn:Ha; simpl.
    + pose proof (hydrate_query_given a) as Hg. rewrite Ha in Hg.
      by rewrite Hg, orb_true_r.
    + by destruct (given (hydrate b) || given (hydrate a)).
Qed.

Lemma declare_eq specs w :
  declare specs w = set_optionsRef (foldl merge (optionsRef w) specs) w.
Proof.
  revert w. induction specs as [|o specs IH]; intros w; simpl.
  - by destruct w.
  - unfold declare in *. simpl. by rewrite IH.
Qed.

(** ** The stages of a request *)

Lemma request_block_mounted options w :
  mounted w = true →
  let w1 := updateOptions options w in
  request_block options w
  = fetch false options (read (query (optionsRef w1)))
      (dispatch (mkAction A_LOADING JUndefined) w1).
Proof.
  intros Hm. unfold request_block, call. simpl. by rewrite Hm.
Qed.

Lemma after_primary_hydrates options w :
  mounted w = true →
  defined (hydrate_query (optionsRef w)) = true →
  let w1 := updateOptions options w in
  after_primary options w
  = fetch true options (hydrate_query (optionsRef w1))
      (dispatch (mkAction A_HYDRATING JUndefined) w1).
Proof.
  intros Hm Hq. unfold after_primary, call.
  rewrite (hydrate_query_given _ Hq). simpl.
  rewrite Hm. unfold updateOptions; simpl.
  by rewrite merge_keeps_hydrate_query.
Qed.

(** What [call] and the tail of [request] leave alone. *)
Lemma call_frame hyd options w :
  let w' := fst (call hyd options w) in
  data (state w') = data (state w) ∧ error (state w') = error (state w) ∧
  mounted w' = mounted w ∧ hasFetched w' = hasFetched w ∧
  rejected w' = rejected w ∧
  (∃ hs, history w' = (history w ++ hs)%list) ∧
  (∃ cs, pending w' = (pending w ++ cs)%list).
Proof.
  unfold call. simpl.
  destruct (negb (mounted w) || _); simpl.
  - repeat split; try done; exists []; by rewrite app_nil_r.
  - rewrite ?queryReducer_eq. repeat split; try (by destruct hyd); eauto.
Qed.

Lemma after_primary_frame options w :
  let w' := after_primary options w in
  data (state w') = data (state w) ∧ error (state w') = error (state w) ∧
  mounted w' = mounted w ∧ hasFetched w' = hasFetched w ∧
  rejected w' = rejected w ∧
  (∃ hs, history w' = (history w ++ hs)%list) ∧
  (∃ cs, pending w' = (pending w ++ cs)%list).
Proof.
  unfold after_primary. destruct (given _); [apply call_frame|].
  repeat split; try done; exists []; by rewrite app_nil_r.
Qed.

Lemma settle_found tok r w c :
  find_call tok (pending w) = Some c →
  settle tok r w
  = match call_settled (withHydrate c) r
            (set_pending (drop_call tok (pending w)) w) with
    | (w1, Some e) => add_rejected e w1
    | (w1, None) =>
        if withHydrate c then w1 else after_primary (req_options c) w1
    end.
Proof. intros H. unfold settle. by rewrite H. Qed.

Lemma settle_last tok r w p c :
  pending w = (p ++ [c])%list → token c = tok →
  (∀ c', c' ∈ p → token c' ≠ tok) →
  settle tok r w
  = match call_settled (withHydrate c) r (set_pending p w) with
    | (w1, Some e) => add_rejected e w1
    | (w1, None) =>
        if withHydrate c then w1 else after_primary (req_options c) w1
    end.
Proof.
  intros Hp Hc Hne. unfold settle.
  by rewrite Hp, find_call_snoc, drop_call_snoc.
Qed.

Lemma succeeds_inv d :
  succeeds d = true → ∃ e, get_prop d "error" = Some e ∧ truthy e = false.
Proof.
  unfold succeeds. destruct (get_prop d "error") as [e|]; [|done].
  intros H. exists e. split; [done|]. by apply negb_true_iff.
Qed.

Lemma call_settled_success hyd d w :
  mounted w = true → succeeds d = true →
  call_settled hyd (Resolve d) w
  = (dispatch (mkAction (if hyd then A_HYDRATED else A_LOADED) d)
       (set_hasFetched true w), None).
Proof.
  intros Hm (e & He & Ht)%succeeds_inv. simpl. by rewrite He, Ht, Hm.
Qed.

Lemma call_settled_thrown hyd r e w :
  thrown r = Some e → call_settled hyd r w = on_catch e w.
Proof.
  destruct r as [d|e']; simpl.
  - destruct (get_prop d "error") as [x|]; [|by intros [= <-]].
    destruct (truthy x); [by intros [= <-]|done].
  - by intros [= <-].
Qed.

Lemma call_settled_pending hyd r w :
  pending (fst (call_settled hyd r w)) = pending w.
Proof.
  unfold call_settled, on_catch.
  destruct r as [d|e]; simpl.
  - destruct (get_prop d "error") as [e|]; simpl;
      [destruct (truthy e)|]; destruct (mounted w); simpl; try done.
    by destruct (get_prop e "message").
  - destruct (mounted w); simpl; [|done].
    by destruct (get_prop e "message").
Qed.

(** A resolution with an error-free payload, while mounted: the handler
    stores the payload.  Nothing is asked of [abortRef]. *)
Lemma settle_success tok d w c :
  mounted w = true → find_call tok (pending w) = Some c →
  succeeds d = true →
  let w' := settle tok (Resolve d) w in
  data (state w') = d ∧ hasFetched w' = true ∧ mounted w' = true ∧
  ∃ hs, history w'
        = (history w
           ++ (if withHydrate c then HYDRATED else LOADED) :: hs)%list.
Proof.
  intros Hm Hc Hd. simpl. rewrite (settle_found _ _ _ _ Hc).
  rewrite call_settled_success by done.
  destruct (withHydrate c).
  - simpl. rewrite ?queryReducer_eq. simpl. eauto.
  - pose proof (after_primary_frame (req_options c)
      (dispatch (mkAction A_LOADED d)
         (set_hasFetched true (set_pending (drop_call tok (pending w)) w))))
      as (H1 & _ & H3 & H4 & _ & [hs Hh] & _).
    simpl in *. rewrite H1, H3, H4, Hh, ?queryReducer_eq. simpl.
    rewrite <- app_assoc. simpl. eauto.
Qed.

(** Settling one call leaves every other call in flight. *)
Lemma settle_keeps_other tok tok' r w c :
  tok ≠ tok' → find_call tok (pending w) = Some c →
  find_call tok (pending (settle tok' r w)) = Some c.
Proof.
  intros Hne Hc. unfold settle.
  destruct (find_call tok' (pending w)) as [c'|] eqn:Hc'; [|done].
  pose proof (call_settled_pending (withHydrate c') r
    (set_pending (drop_call tok' (pending w)) w)) as Hp.
  destruct (call_settled _ _ _) as [w1 [e|]]; simpl in Hp.
  - simpl. rewrite Hp. by rewrite find_call_drop.
  - destruct (withHydrate c').
    + rewrite Hp. by rewrite find_call_drop.
    + destruct (after_primary_frame (req_options c') w1)
        as (_ & _ & _ & _ & _ & _ & [cs Hcs]).
      rewrite Hcs. apply find_call_app. rewrite Hp.
      by rewrite find_call_drop.
Qed.

Lemma settle_primary_success tok d w c :
  mounted w = true → find_call tok (pending w) = Some c →
  withHydrate c = false → succeeds d = true →
  settle tok (Resolve d) w
  = after_primary (req_options c)
      (dispatch (mkAction A_LOADED d)
         (set_hasFetched true (set_pending (drop_call tok (pending w)) w))).
Proof.
  intros Hm Hc Hh Hd. rewrite (settle_found _ _ _ _ Hc), Hh.
  by rewrite call_settled_success.
Qed.

(** The tail of [request] on a mounted hook, by [hydration_due]. *)
Lemma after_primary_cases options w :
  mounted w = true →
  after_primary options w
  = if hydration_due options w
    then fetch true options
           (hydrate_query (optionsRef (updateOptions options w)))
           (dispatch (mkAction A_HYDRATING JUndefined)
                     (updateOptions options w))
    else if given (hydrate (optionsRef w)) then updateOptions options w
    else w.
Proof.
  intros Hm. unfold after_primary, hydration_due, call. simpl. rewrite Hm.
  destruct (given (hydrate (optionsRef w))); [|done]. simpl.
  by destruct (defined _).
Qed.

(** ** Token numbering is an invariant of every run *)

Lemma fresh_spec w :
  fresh w = true ↔ ∀ c, c ∈ pending w → token c < controllers w.
Proof.
  unfold fresh. rewrite forallb_forall. split; intros H c Hc.
  - apply Nat.ltb_lt, H. by apply list_elem_of_In.
  - apply Nat.ltb_lt, H. by apply list_elem_of_In.
Qed.

Lemma fresh_other w k c :
  fresh w = true → c ∈ pending w → token c ≠ controllers w + k.
Proof.
  intros Hf Hc. pose proof (proj1 (fresh_spec w) Hf c Hc). lia.
Qed.

Lemma fresh_call hyd options w :
  fresh w = true → fresh (fst (call hyd options w)) = true.
Proof.
  rewrite !fresh_spec. intros Hf. unfold call. simpl.
  destruct (negb (mounted w) || _); simpl; [done|].
  intros c [Hc| ->%list_elem_of_singleton]%elem_of_app; simpl; [|lia].
  specialize (Hf c Hc). lia.
Qed.

Lemma fresh_after_primary options w :
  fresh w = true → fresh (after_primary options w) = true.
Proof.
  intros Hf. unfold after_primary.
  destruct (given _); [by apply fresh_call|done].
Qed.

Lemma fresh_request_block options w :
  fresh w = true → fresh (request_block options w) = true.
Proof.
  intros Hf. unfold request_block.
  pose proof (fresh_call false options w Hf) as H.
  destruct (call false options w) as [w1 [|]]; [done|].
  by apply fresh_after_primary.
Qed.

Lemma call_settled_controllers hyd r w :
  controllers (fst (call_settled hyd r w)) = controllers w.
Proof.
  unfold call_settled, on_catch.
  destruct r as [d|e]; simpl.
  - destruct (get_prop d "error") as [e|]; simpl;
      [destruct (truthy e)|]; destruct (mounted w); simpl; try done.
    by destruct (get_prop e "message").
  - destruct (mounted w); simpl; [|done].
    by destruct (get_prop e "message").
Qed.

Lemma fresh_settle tok r w : fresh w = true → fresh (settle tok r w) = true.
Proof.
  intros Hf. unfold settle.
  destruct (find_call tok (pending w)) as [c|]; [|done].
  set (w0 := set_pending (drop_call tok (pending w)) w).
  assert (Hf0 : fresh (fst (call_settled (withHydrate c) r w0)) = true).
  { apply fresh_spec. rewrite call_settled_pending, call_settled_controllers.
    simpl. intros c' [_ Hc']%list_elem_of_filter.
    by apply (proj1 (fresh_spec w) Hf). }
  destruct (call_settled (withHydrate c) r w0) as [w1 [e|]]; simpl in Hf0.
  - done.
  - destruct (withHydrate c); [done|by apply fresh_after_primary].
Qed.

Lemma fresh_step w ev : fresh w = true → fresh (step w ev) = true.
Proof.
  intros Hf. destruct ev; simpl.
  - unfold request. by rewrite guard_never_passes.
  - by apply fresh_request_block.
  - done.
  - by apply fresh_settle.
  - unfold abort. by destruct (abortRef w).
  - unfold reset, abort. destruct (abortRef w); simpl;
      by destruct (mounted w).
  - done.
  - unfold cleanup, abort. by destruct (abortRef w).
Qed.

Lemma fresh_run evs w : fresh w = true → fresh (run evs w) = true.
Proof.
  revert w. induction evs as [|ev evs IH]; intros w Hf; [done|].
  simpl. by apply IH, fresh_step.
Qed.

Lemma fresh_reachable evs options : fresh (run evs (init options)) = true.
Proof. by apply fresh_run. Qed.

(** ** Teardown: an unmounted hook never changes its state again *)

Lemma unmounted_call hyd options w :
  mounted w = false → call hyd options w = (updateOptions options w, false).
Proof. intros Hm. unfold call. simpl. by rewrite Hm. Qed.

Lemma unmounted_after_primary options w :
  mounted w = false →
  state (after_primary options w) = state w ∧
  mounted (after_primary options w) = false.
Proof.
  intros Hm. unfold after_primary.
  destruct (given _); [|done]. by rewrite unmounted_call.
Qed.

Lemma unmounted_call_settled hyd r w :
  mounted w = false → call_settled hyd r w = (w, None).
Proof.
  intros Hm. unfold call_settled, on_catch. rewrite Hm. simpl.
  destruct r as [d|e]; [|done].
  destruct (get_prop d "error") as [e|]; [|done]. by destruct (truthy e).
Qed.

Lemma unmounted_step w ev :
  mounted w = false →
  state (step w ev) = state w ∧ mounted (step w ev) = false.
Proof.
  intros Hm. destruct ev; simpl.
  - unfold request. by rewrite guard_never_passes.
  - unfold request_block. rewrite unmounted_call by done.
    by destruct (unmounted_after_primary options (updateOptions options w) Hm)
      as [-> ->].
  - done.
  - unfold settle. destruct (find_call tok (pending w)) as [c|]; [|done].
    rewrite unmounted_call_settled by done.
    destruct (withHydrate c); [done|].
    by destruct (unmounted_after_primary (req_options c)
                   (set_pending (drop_call tok (pending w)) w) Hm)
      as [-> ->].
  - unfold abort. by destruct (abortRef w).
  - unfold reset, abort. destruct (abortRef w); simpl; by rewrite Hm.
  - done.
  - unfold cleanup, abort. by destruct (abortRef w).
Qed.

Lemma unmounted_is_frozen evs w :
  mounted w = false → state (run evs w) = state w.
Proof.
  revert w. induction evs as [|ev evs IH]; intros w Hm; [done|].
  destruct (unmounted_step w ev Hm) as [Hs Hm']. simpl.
  by rewrite IH.
Qed.

(** ** Stored data goes back to [null] through [reset] only *)

Lemma call_settled_data hyd r w :
  data (state (fst (call_settled hyd r w))) = data (state w) ∨
  ∃ d, succeeds d = true ∧ data (state (fst (call_settled hyd r w))) = d.
Proof.
  assert (Hc : ∀ e, data (state (fst (on_catch e w))) = data (state w)).
  { intros e. unfold on_catch. destruct (mounted w); simpl; [|done].
    destruct (get_prop e "message"); simpl; [|done].
    by rewrite ?queryReducer_eq. }
  destruct r as [d|e]; simpl; [|by left].
  destruct (get_prop d "error") as [e|] eqn:He; [|by left].
  destruct (truthy e) eqn:Ht; [by left|].
  destruct (mounted w); simpl; [|by left].
  right. exists d. split.
  - unfold succeeds. by rewrite He, Ht.
  - rewrite ?queryReducer_eq. by destruct hyd.
Qed.

Lemma succeeds_not_null d : succeeds d = true → d ≠ JNull.
Proof. by intros H ->. Qed.

Lemma data_null_by_reset_only w ev :
  data (state w) ≠ JNull → data (state (step w ev)) = JNull → ev = EvReset.
Proof.
  intros Hd Hn. destruct ev; simpl in Hn; try done.
  - unfold request in Hn. by rewrite guard_never_passes in Hn.
  - unfold request_block in Hn.
    pose proof (call_frame false options w) as (H1 & _).
    destruct (call false options w) as [w1 [|]]; simpl in H1.
    + congruence.
    + destruct (after_primary_frame options w1) as (H2 & _). congruence.
  - unfold settle in Hn.
    destruct (find_call tok (pending w)) as [c|]; [|done].
    set (w0 := set_pending (drop_call tok (pending w)) w) in Hn.
    assert (Hx : data (state (fst (call_settled (withHydrate c) r w0)))
                 ≠ JNull).
    { destruct (call_settled_data (withHydrate c) r w0)
        as [->|(d & Hs & ->)]; [done|by apply succeeds_not_null]. }
    destruct (call_settled (withHydrate c) r w0) as [w1 [e|]]; simpl in Hx.
    + done.
    + destruct (withHydrate c); [done|].
      destruct (after_primary_frame (req_options c) w1) as (H2 & _).
      congruence.
  - unfold abort in Hn. by destruct (abortRef w).
  - unfold cleanup, abort in Hn. by destruct (abortRef w).
Qed.

(** ** Overlapping requests *)

(** X18: past the guard, the completion handler tests the mounted flag
    and nothing else, so a call whose controller is no longer the one in
    [abortRef] still applies its transition.  With two calls in flight on
    a mounted hook, both resolving with error-free payloads, the second
    settling first: once the first has settled too, the stored data is the
    first call's payload, and its LOADED (or HYDRATED) transition was
    applied on top of the second's. *)
Theorem stale_resolution_applies (w : World) (c1 c2 : InFlight)
    (d1 d2 : jsval) :
  mounted w = true →
  find_call (token c1) (pending w) = Some c1 →
  find_call (token c2) (pending w) = Some c2 →
  token c1 ≠ token c2 →
  succeeds d1 = true → succeeds d2 = true →
  let w2 := settle (token c2) (Resolve d2) w in
  let w1 := settle (token c1) (Resolve d1) w2 in
  data (state w1) = d1 ∧
  ∃ hs, history w1
        = (history w2
           ++ (if withHydrate c1 then HYDRATED else LOADED) :: hs)%list.
Proof.
  intros Hm H1 H2 Hne Hd1 Hd2 w2 w1.
  destruct (settle_success _ d2 w c2 Hm H2 Hd2) as (_ & _ & Hm2 & _).
  fold w2 in Hm2.
  pose proof (settle_keeps_other _ _ (Resolve d2) w c1 Hne H1) as H1'.
  fold w2 in H1'.
  by destruct (settle_success _ d1 w2 c1 Hm2 H1' Hd1) as (Hdata & _ & _ & Hh).
Qed.

Lemma stale_resolution_applies_witness :
  let w2 := settle 1 (Resolve (counted 2)) two_requests in
  let w1 := settle 0 (Resolve (counted 1)) w2 in
  data (state w1) = counted 1 ∧
  ∃ hs, history w1 = (history w2 ++ LOADED :: hs)%list.
Proof.
  apply (stale_resolution_applies two_requests
           (mkInFlight 0 false (Some (page 1)))
           (mkInFlight 1 false (Some (page 2)))
           (counted 1) (counted 2));
    [reflexivity | reflexivity | reflexivity | simpl; lia
    | reflexivity | reflexivity].
Defined.

(** The same on two sample requests taken past the guard before either
    settles: the second call's controller is the current one, the second
    resolves, then the first, and the data ends as the first payload. *)
Lemma stale_resolution_overwrites :
  let w2 := settle 1 (Resolve (counted 2)) two_requests in
  let w1 := settle 0 (Resolve (counted 1)) w2 in
  abortRef two_requests = Some 1 ∧
  abortRef w2 = Some 1 ∧
  state w2 = {| status := LOADED; data := counted 2; error := JNull |} ∧
  state w1 = {| status := LOADED; data := counted 1; error := JNull |} ∧
  state w1 ≠ state w2 ∧
  data (state w1) ≠ counted 2 ∧
  history w1 = (history w2 ++ [LOADED])%list.
Proof. repeat split; try reflexivity; discriminate. Qed.

(** ** One request cycle, past the guard *)

Lemma hydration_due_dispatch options a w :
  hydration_due options (dispatch a w) = hydration_wanted options w.
Proof. reflexivity. Qed.

(** The tail of [request] right after a dispatch: the render has put the
    hook's argument back. *)
Lemma after_primary_dispatch options a w :
  mounted w = true →
  after_primary options (dispatch a w)
  = if hydration_wanted options w
    then fetch true options
           (hydrate_query (merge (hookOptions w) (default no_options options)))
           (dispatch (mkAction A_HYDRATING JUndefined)
                     (updateOptions options (dispatch a w)))
    else if given (hydrate (hookOptions w))
         then updateOptions options (dispatch a w)
         else dispatch a w.
Proof.
  intros Hm. rewrite after_primary_cases by done.
  by rewrite hydration_due_dispatch.
Qed.

Lemma options_events_frame evs w :
  forallb is_options_event evs = true →
  ∃ o, run evs w = set_optionsRef o w.
Proof.
  revert w. induction evs as [|ev evs IH]; intros w Hev.
  - exists (optionsRef w). by destruct w.
  - simpl in Hev. apply andb_true_iff in Hev as [Hev Hevs].
    destruct ev; try done; simpl.
    + destruct (IH (updateOptions (Some spec) w) Hevs) as [o Ho].
      exists o. by rewrite Ho.
    + destruct (IH (render w) Hevs) as [o Ho]. exists o. by rewrite Ho.
Qed.

(** X21: on a mounted hook whose own argument holds a hydrate query, a
    request that gets past the guard and whose two transport calls
    resolve with error-free payloads dispatches LOADING, LOADED,
    HYDRATING, HYDRATED in that order and nothing else; the final data is
    the second payload alone; the transport was called twice, first with
    the query of the stored options merged with the request's, then with
    the hydrate query of the hook's argument merged with the request's. *)
Theorem hydration_order (options : option QueryOptions) (w : World)
    (d1 d2 : jsval) :
  mounted w = true → fresh w = true →
  defined (hydrate_query (hookOptions w)) = true →
  succeeds d1 = true → succeeds d2 = true →
  let o1 := merge (optionsRef w) (default no_options options) in
  let o2 := merge (hookOptions w) (default no_options options) in
  let n := controllers w in
  let w3 := settle (S n) (Resolve d2)
              (settle n (Resolve d1) (request_block options w)) in
  history w3 = (history w ++ [LOADING; LOADED; HYDRATING; HYDRATED])%list ∧
  state w3 = {| status := HYDRATED; data := d2; error := error (state w) |} ∧
  fetches w3
  = (fetches w ++ [transport_args (read (query o1)) n false;
                   transport_args (hydrate_query o2) (S n) true])%list ∧
  pending w3 = pending w ∧ rejected w3 = rejected w.
Proof.
  intros Hm Hf Hq Hd1 Hd2 o1 o2 n w3.
  pose proof (merge_keeps_hydrate_query _ (default no_options options) Hq)
    as Hq2.
  assert (Hw : hydration_wanted options w = true).
  { unfold hydration_wanted. by rewrite (hydrate_query_given _ Hq), Hq2. }
  assert (Hne0 : ∀ c, c ∈ pending w → token c ≠ n).
  { intros c Hc. pose proof (fresh_other w 0 c Hf Hc). subst n. lia. }
  assert (Hne1 : ∀ c, c ∈ pending w → token c ≠ S n).
  { intros c Hc. pose proof (fresh_other w 1 c Hf Hc). subst n. lia. }
  subst w3. rewrite request_block_mounted by done.
  erewrite (settle_last n); [|reflexivity|reflexivity|done].
  rewrite call_settled_success by done. cbn [withHydrate req_options].
  rewrite after_primary_dispatch by done.
  match goal with
  | |- context [hydration_wanted options ?x] =>
      change (hydration_wanted options x) with (hydration_wanted options w)
  end.
  rewrite Hw.
  erewrite (settle_last (S n)); [|reflexivity|reflexivity|done].
  rewrite call_settled_success by done. cbn [withHydrate].
  simpl. by rewrite <- !app_assoc.
Qed.

Lemma hydration_order_witness :
  let w := init ids_options in
  let o := merge ids_options (page 1) in
  let w3 := settle 1 (Resolve (counted 7))
              (settle 0 (Resolve (counted 120))
                 (request_block (Some (page 1)) w)) in
  history w3 = [LOADING; LOADED; HYDRATING; HYDRATED] ∧
  state w3 = {| status := HYDRATED; data := counted 7; error := JNull |} ∧
  fetches w3 = [transport_args (read (query o)) 0 false;
                transport_args (hydrate_query o) 1 true] ∧
  pending w3 = [] ∧ rejected w3 = [].
Proof.
  apply (hydration_order (Some (page 1)) (init ids_options)
           (counted 120) (counted 7)); reflexivity.
Defined.

(** X20: past the guard, on a mounted hook, whether the hydration fetch
    follows a settled primary call is decided by the hook's own argument
    and the request's options alone ([hydration_wanted]): it follows a
    failed primary call (ERROR, then HYDRATING) exactly as it follows a
    successful one (LOADED, then HYDRATING), and what the transport
    declared meanwhile plays no part. *)
Theorem hydration_ignores_outcome (w : World) (c : InFlight)
    (r : Settlement) :
  mounted w = true →
  find_call (token c) (pending w) = Some c →
  withHydrate c = false →
  (∃ d, r = Resolve d ∧ succeeds d = true) ∨
  (∃ e m, thrown r = Some e ∧ get_prop e "message" = Some m) →
  let w' := settle (token c) r w in
  let first := match thrown r with Some _ => ERROR | None => LOADED end in
  if hydration_wanted (req_options c) w
  then history w' = (history w ++ [first; HYDRATING])%list ∧
       fetches w'
       = (fetches w
          ++ [transport_args
                (hydrate_query (merge (hookOptions w)
                                  (default no_options (req_options c))))
                (controllers w) true])%list
  else history w' = (history w ++ [first])%list ∧
       fetches w' = fetches w.
Proof.
  intros Hm Hc Hh Hr w' first. subst w' first.
  rewrite (settle_found _ _ _ _ Hc), Hh.
  set (w0 := set_pending (drop_call (token c) (pending w)) w).
  assert (H0 : mounted w0 = true ∧ hookOptions w0 = hookOptions w ∧
               history w0 = history w ∧ fetches w0 = fetches w ∧
               controllers w0 = controllers w ∧
               hydration_wanted (req_options c) w0
               = hydration_wanted (req_options c) w) by done.
  destruct H0 as (Hm0 & Hk0 & Hh0 & Hf0 & Hn0 & Hw0). clearbody w0.
  destruct Hr as [(d & -> & Hd)|(e & m & Ht & He)].
  - rewrite call_settled_success by done.
    assert (Hth : thrown (Resolve d) = None).
    { apply succeeds_inv in Hd as (x & Hx & Hx'). simpl. by rewrite Hx, Hx'. }
    rewrite Hth.
    rewrite after_primary_dispatch by done.
    change (hydration_wanted (req_options c) (set_hasFetched true w0))
      with (hydration_wanted (req_options c) w0).
    rewrite Hw0. destruct (hydration_wanted (req_options c) w).
    + simpl. rewrite ?queryReducer_eq. simpl.
      by rewrite Hk0, Hh0, Hf0, Hn0, <- app_assoc.
    + destruct (given (hydrate (hookOptions (set_hasFetched true w0))));
        simpl; by rewrite ?queryReducer_eq, Hh0, Hf0.
  - rewrite (call_settled_thrown _ _ _ _ Ht), Ht. unfold on_catch.
    rewrite Hm0, He. cbn [negb].
    rewrite after_primary_dispatch by done.
    rewrite Hw0. destruct (hydration_wanted (req_options c) w).
    + simpl. rewrite ?queryReducer_eq. simpl.
      by rewrite Hk0, Hh0, Hf0, Hn0, <- app_assoc.
    + destruct (given (hydrate (hookOptions w0)));
        simpl; by rewrite ?queryReducer_eq, Hh0, Hf0.
Qed.

Lemma hydration_ignores_outcome_witness :
  let w := request_block None (init ids_options) in
  let w' := settle 0 (Reject boom) w in
  history w' = (history w ++ [ERROR; HYDRATING])%list ∧
  fetches w'
  = (fetches w
     ++ [transport_args (hydrate_query (merge ids_options no_options))
           1 true])%list.
Proof.
  apply (hydration_ignores_outcome (request_block None (init ids_options))
           (mkInFlight 0 false None) (Reject boom));
    [reflexivity | reflexivity | reflexivity |].
  right. exists boom, (JStr "boom"). split; reflexivity.
Defined.

(** X22: in a request cycle of a mounted hook, past the guard, whose
    phase 1 succeeds, with the transport free to declare options and
    React free to render while the call is pending, the transport is
    called a second time exactly when the hook's own argument holds a
    hydrate object and that argument or the request's options hold a
    hydrate query.  A hydrate object without a query gives one call, and
    so does an argument without a hydrate object. *)
Theorem second_fetch_needs_hydrate_query (options : option QueryOptions)
    (between : list Event) (d : jsval) (w : World) :
  mounted w = true → fresh w = true → succeeds d = true →
  forallb is_options_event between = true →
  let w1 := run between (request_block options w) in
  let w2 := settle (controllers w) (Resolve d) w1 in
  length (fetches w2)
  = length (fetches w) + (if hydration_wanted options w then 2 else 1) ∧
  (hydrate_query (hookOptions w) = None →
   hydrate_query (default no_options options) = None →
   length (fetches w2) = length (fetches w) + 1) ∧
  (given (hydrate (hookOptions w)) = false →
   length (fetches w2) = length (fetches w) + 1).
Proof.
  intros Hm Hf Hd Hev w1 w2.
  assert (Hne : ∀ c, c ∈ pending w → token c ≠ controllers w).
  { intros c Hc. pose proof (fresh_other w 0 c Hf Hc). lia. }
  assert (Hcount : length (fetches w2)
    = length (fetches w) + (if hydration_wanted options w then 2 else 1)).
  { set (c := mkInFlight (controllers w) false options).
    assert (Hw1 : mounted w1 = true ∧
                  find_call (controllers w) (pending w1) = Some c ∧
                  length (fetches w1) = length (fetches w) + 1 ∧
                  hookOptions w1 = hookOptions w).
    { subst w1.
      destruct (options_events_frame between (request_block options w) Hev)
        as [o ->].
      rewrite request_block_mounted by done. simpl.
      rewrite find_call_snoc by done. by rewrite length_app. }
    destruct Hw1 as (Hm1 & Hc1 & Hl1 & Hk1). subst w2. clearbody w1.
    rewrite (settle_primary_success _ _ _ _ Hm1 Hc1 eq_refl Hd).
    rewrite after_primary_dispatch by done. cbn [req_options c].
    assert (Hw : hydration_wanted options
                   (set_hasFetched true
                      (set_pending (drop_call (controllers w) (pending w1))
                         w1))
                 = hydration_wanted options w).
    { unfold hydration_wanted. simpl. by rewrite Hk1. }
    rewrite Hw. destruct (hydration_wanted options w).
    - simpl. rewrite length_app. simpl. lia.
    - simpl. destruct (given (hydrate (hookOptions w1))); simpl; lia. }
  split; [done|]. split.
  - intros Hk Ho. rewrite Hcount. unfold hydration_wanted.
    by rewrite hydrate_query_merge, Hk, Ho, andb_false_r.
  - intros Hg. rewrite Hcount. unfold hydration_wanted. by rewrite Hg.
Qed.

(** The options of the usage example, with the transport declaring the
    hydrate query while phase 1 runs as the example has it: the
    declaration does not survive to line 229, and the cycle makes one
    call. *)
Lemma second_fetch_needs_hydrate_query_witness :
  let w1 := run [EvDeclare ids_options]
              (request_block None (init projects_options)) in
  let w2 := settle 0 (Resolve (counted 120)) w1 in
  length (fetches w2) = 0 + 1 ∧
  (hydrate_query projects_options = None →
   hydrate_query no_options = None →
   length (fetches w2) = 0 + 1) ∧
  (given (hydrate projects_options) = false →
   length (fetches w2) = 0 + 1).
Proof.
  apply (second_fetch_needs_hydrate_query None [EvDeclare ids_options]
           (counted 120) (init projects_options)); reflexivity.
Defined.

(** An empty hydrate object, past the guard: the stored options carry it
    and the primary fetch succeeds, yet there is no HYDRATING transition
    and no second transport call. *)
Lemma empty_hydrate_not_hydrated :
  let w := settle 0 (Resolve (counted 120))
             (request_block (Some (page 2)) (init empty_hydrate)) in
  hydrate (optionsRef w) = Has {| hquery := Undef |} ∧
  state w = {| status := LOADED; data := counted 120; error := JNull |} ∧
  history w = [LOADING; LOADED] ∧
  map hydrate_flag (fetches w) = [false] ∧
  pending w = [].
Proof. repeat split; reflexivity. Qed.

(** A failed primary fetch is followed by the hydration fetch all the
    same. *)
Lemma hydration_after_error :
  let w := settle 0 (Reject boom) (request_block None (init ids_options)) in
  state w = {| status := HYDRATING; data := JNull; error := JStr "boom" |} ∧
  history w = [LOADING; ERROR; HYDRATING] ∧
  map hydrate_flag (fetches w) = [false; true].
Proof. repeat split; reflexivity. Qed.

(** The options of the usage example carry [hydrate: {}]; when the
    transport declares nothing and phase 1 succeeds, the cycle ends at
    LOADED after a single fetch. *)
Lemma empty_hydrate_single_fetch :
  let w := settle 0 (Resolve (counted 120))
             (request_block None (init projects_options)) in
  hydrate projects_options = Has {| hquery := Absent |} ∧
  status (state w) = LOADED ∧
  length (fetches w) = 1 ∧
  history w = [LOADING; LOADED] ∧
  pending w = [].
Proof. repeat split; reflexivity. Qed.

(** ** Failures of the transport *)

(** X19: past the guard, on a mounted hook, when the transport promise
    rejects with [e], or resolves with a payload whose [error] field [e]
    is truthy (or with a payload on which reading [.error] throws [e]),
    and [e] is not [null] or [undefined], the handler dispatches ERROR
    with [e.message]: the status becomes ERROR, the error field holds
    [e.message], data is kept, and [call] returns normally, so
    [request()] does not reject. *)
Theorem failure_contained (hyd : bool) (r : Settlement) (e m : jsval)
    (w : World) :
  mounted w = true →
  thrown r = Some e →
  get_prop e "message" = Some m →
  call_settled hyd r w = (dispatch (mkAction A_ERROR m) w, None) ∧
  state (dispatch (mkAction A_ERROR m) w)
  = {| status := ERROR; data := data (state w); error := m |} ∧
  ∀ tok c, find_call tok (pending w) = Some c →
    rejected (settle tok r w) = rejected w ∧
    error (state (settle tok r w)) = m ∧
    data (state (settle tok r w)) = data (state w).
Proof.
  intros Hm Ht He. split; [|split].
  - rewrite (call_settled_thrown _ _ _ _ Ht).
    unfold on_catch. by rewrite Hm, He.
  - simpl. by rewrite ?queryReducer_eq.
  - intros tok c Hc. rewrite (settle_found _ _ _ _ Hc).
    set (w0 := set_pending (drop_call tok (pending w)) w).
    assert (Hm0 : mounted w0 = true) by done.
    rewrite (call_settled_thrown _ _ _ _ Ht). unfold on_catch.
    rewrite Hm0, He. cbn [negb]. destruct (withHydrate c).
    + simpl. by rewrite ?queryReducer_eq.
    + destruct (after_primary_frame (req_options c)
                  (dispatch (mkAction A_ERROR m) w0))
        as (H1 & H2 & _ & _ & H5 & _).
      rewrite H1, H2, H5. simpl. by rewrite ?queryReducer_eq.
Qed.

Lemma failure_contained_witness :
  let w := request_block None (init no_options) in
  call_settled false (Reject boom) w
  = (dispatch (mkAction A_ERROR (JStr "boom")) w, None) ∧
  state (dispatch (mkAction A_ERROR (JStr "boom")) w)
  = {| status := ERROR; data := data (state w); error := JStr "boom" |} ∧
  ∀ tok c, find_call tok (pending w) = Some c →
    rejected (settle tok (Reject boom) w) = rejected w ∧
    error (state (settle tok (Reject boom) w)) = JStr "boom" ∧
    data (state (settle tok (Reject boom) w)) = data (state w).
Proof.
  apply (failure_contained false (Reject boom) boom (JStr "boom")
           (request_block None (init no_options))); reflexivity.
Defined.

(** Where the handler does not end in ERROR.  After the cleanup a
    rejection is dropped: the status stays LOADING and no error is
    stored.  A payload whose error field is [null] is a success.  In the
    earlier revision a rejection is not caught at all: it leaves
    [request()] as an exception and the state is untouched. *)
Lemma failure_without_ERROR :
  (let w := cleanup (request_block None (init no_options)) in
   let w' := settle 0 (Reject boom) w in
   state w' = {| status := LOADING; data := JNull; error := JNull |}) ∧
  (let d := JObj [("error", JNull); ("count", JNum 3)] in
   let w' := settle 0 (Resolve d) (request_block None (init no_options)) in
   state w' = {| status := LOADED; data := d; error := JNull |}) ∧
  (let w := Legacy.request_block None (Legacy.init Legacy.no_options) in
   let w' := Legacy.settle 0 (Reject boom) w in
   Legacy.rejected w' = [boom] ∧ Legacy.state w' = Legacy.state w).
Proof. repeat split; reflexivity. Qed.

(** A rejection with [undefined] makes the catch block itself throw when
    it reads [err.message]: [request()] rejects and no ERROR is
    dispatched. *)
Lemma nullish_rejection_escapes :
  let w := settle 0 (Reject JUndefined)
             (request_block None (init no_options)) in
  rejected w = [type_error "message"] ∧
  state w = {| status := LOADING; data := JNull; error := JNull |}.
Proof. split; reflexivity. Qed.

(** An error that is a bare string has no [message]: ERROR is dispatched
    with [undefined]. *)
Lemma string_error_has_no_message :
  let d := JObj [("error", JStr "Not found")] in
  let w := settle 0 (Resolve d) (request_block None (init no_options)) in
  state w = {| status := ERROR; data := JNull; error := JUndefined |}.
Proof. reflexivity. Qed.

(** ** The earlier revision past its guard *)

Lemma legacy_rejection_escapes hyd e w :
  Legacy.call_settled hyd (Reject e) w = (w, Some e).
Proof. reflexivity. Qed.

(** There an error field in the payload is not looked at. *)
Lemma legacy_error_payload_is_data hyd d w :
  Legacy.mounted w = true →
  Legacy.data (Legacy.state (fst (Legacy.call_settled hyd (Resolve d) w))) = d.
Proof.
  intros Hm. unfold Legacy.call_settled. rewrite Hm. simpl.
  rewrite legacy_queryReducer_eq. by destruct hyd.
Qed.

(** A rejected primary fetch ends the request: no hydration follows. *)
Lemma legacy_no_hydration_after_rejection tok e w c :
  Legacy.find_call tok (Legacy.pending w) = Some c →
  Legacy.fetches (Legacy.settle tok (Reject e) w) = Legacy.fetches w ∧
  Legacy.history (Legacy.settle tok (Reject e) w) = Legacy.history w.
Proof. intros Hc. unfold Legacy.settle. by rewrite Hc. Qed.

(** With [hydrate: {}] stored, a successful primary fetch is followed by
    the hydration fetch; the statuses seen are LOADED throughout, then
    HYDRATED. *)
Lemma legacy_empty_hydrate_two_fetches :
  let o := Legacy.mkOptions Absent Absent (Has {| hquery := Absent |}) in
  let w := Legacy.settle 1 (Resolve (counted 7))
             (Legacy.settle 0 (Resolve (counted 120))
                (Legacy.request_block None (Legacy.init o))) in
  Legacy.history w
  = [Legacy.LOADED; Legacy.LOADED; Legacy.LOADED; Legacy.HYDRATED] ∧
  length (Legacy.fetches w) = 2 ∧
  Legacy.data (Legacy.state w) = counted 7.
Proof. repeat split; reflexivity. Qed.

(** The earlier revision's handler does not look at the controller
    either. *)
Lemma legacy_stale_resolution_overwrites :
  let w := Legacy.request_block None
             (Legacy.request_block None (Legacy.init Legacy.no_options)) in
  let w' := Legacy.settle 0 (Resolve (counted 1))
              (Legacy.settle 1 (Resolve (counted 2)) w) in
  Legacy.abortRef w = Some 1 ∧ Legacy.data (Legacy.state w') = counted 1.
Proof. split; reflexivity. Qed.

(** * Further properties *)

(** ** Invariants of runs, by the primitive updates *)

Section StepInvariant.
Variable P : World → Prop.
Hypothesis P_merge : ∀ b w,
  P w → P (set_optionsRef (merge (optionsRef w) b) w).
Hypothesis P_render : ∀ w, P w → P (render w).
Hypothesis P_start : ∀ (hyd : bool) options q w,
  mounted w = true → P w →
  P (fetch hyd options q
       (dispatch (mkAction (if hyd then A_HYDRATING else A_LOADING)
                           JUndefined) w)).
Hypothesis P_fail : ∀ m w,
  mounted w = true → P w → P (dispatch (mkAction A_ERROR m) w).
Hypothesis P_succeed : ∀ (hyd : bool) d w,
  mounted w = true → succeeds d = true → P w →
  P (dispatch (mkAction (if hyd then A_HYDRATED else A_LOADED) d)
       (set_hasFetched true w)).
Hypothesis P_pending : ∀ tok w,
  P w → P (set_pending (drop_call tok (pending w)) w).
Hypothesis P_rejected : ∀ e w,
  mounted w = true → P w → P (add_rejected e w).
Hypothesis P_aborted : ∀ tok w,
  abortRef w = Some tok → P w → P (set_aborted (aborted w ++ [tok]) w).
Hypothesis P_reset : ∀ w,
  mounted w = true → P w →
  P (dispatch (mkAction A_RESET JUndefined) (set_hasFetched false w)).
Hypothesis P_unmount : ∀ w, P w → P (set_mounted false w).

Lemma inv_call hyd options w : P w → P (fst (call hyd options w)).
Proof using P_merge P_start.
  intros Hw. unfold call.
  destruct (mounted (updateOptions options w)) eqn:Hm; simpl.
  - destruct (hyd && _); simpl; [by apply P_merge|].
    apply P_start; [done|by apply P_merge].
  - by apply P_merge.
Qed.

Lemma inv_after_primary options w : P w → P (after_primary options w).
Proof using P_merge P_start.
  intros Hw. unfold after_primary.
  destruct (given _); [by apply inv_call|done].
Qed.

Lemma inv_request_block options w : P w → P (request_block options w).
Proof using P_merge P_start.
  intros Hw. unfold request_block.
  pose proof (inv_call false options w Hw) as H.
  destruct (call false options w) as [w1 [|]]; [done|].
  by apply inv_after_primary.
Qed.

Lemma inv_on_catch e w :
  P w →
  P (fst (on_catch e w)) ∧
  (is_Some (snd (on_catch e w)) → mounted (fst (on_catch e w)) = true).
Proof using P_fail.
  intros Hw. unfold on_catch. destruct (mounted w) eqn:Hm; simpl.
  - destruct (get_prop e "message"); simpl; [|done].
    split; [by apply P_fail|]. by intros [? ?].
  - split; [done|]. by intros [? ?].
Qed.

Lemma inv_call_settled hyd r w :
  P w →
  P (fst (call_settled hyd r w)) ∧
  (is_Some (snd (call_settled hyd r w)) →
   mounted (fst (call_settled hyd r w)) = true).
Proof using P_fail P_succeed.
  intros Hw. destruct r as [d|e]; simpl; [|by apply inv_on_catch].
  destruct (get_prop d "error") as [e|] eqn:He; [|by apply inv_on_catch].
  destruct (truthy e) eqn:Ht; [by apply inv_on_catch|].
  destruct (mounted w) eqn:Hm; simpl.
  - split; [|by intros [? ?]].
    apply P_succeed; [done| |done]. unfold succeeds. by rewrite He, Ht.
  - split; [done|]. by intros [? ?].
Qed.

Lemma inv_settle tok r w : P w → P (settle tok r w).
Proof using P_merge P_start P_fail P_succeed P_pending P_rejected.
  intros Hw. unfold settle.
  destruct (find_call tok (pending w)) as [c|]; [|done].
  pose proof (inv_call_settled (withHydrate c) r _ (P_pending tok w Hw))
    as [H Hm].
  destruct (call_settled _ _ _) as [w1 [e|]]; simpl in H, Hm.
  - apply P_rejected; [by apply Hm|done].
  - destruct (withHydrate c); [done|by apply inv_after_primary].
Qed.

Lemma inv_abort w : P w → P (abort w).
Proof using P_aborted.
  intros Hw. unfold abort.
  destruct (abortRef w) eqn:Ha; [by apply P_aborted|done].
Qed.

Lemma inv_step w ev : P w → P (step w ev).
Proof using All.
  intros Hw. destruct ev; simpl.
  - unfold request. by rewrite guard_never_passes.
  - by apply inv_request_block.
  - by apply P_merge.
  - by apply inv_settle.
  - by apply inv_abort.
  - unfold reset. pose proof (inv_abort w Hw) as Ha.
    destruct (mounted (abort w)) eqn:Hm; simpl; [by apply P_reset|done].
  - by apply P_render.
  - by apply P_unmount, inv_abort.
Qed.

Lemma inv_run evs w : P w → P (run evs w).
Proof using All.
  revert w. induction evs as [|ev evs IH]; intros w Hw; [done|].
  simpl. by apply IH, inv_step.
Qed.
End StepInvariant.


(** ** What [abortRef] holds *)

Lemma latest_controller_run evs options :
  latest_controller (run evs (init options)).
Proof.
  apply inv_run; unfold latest_controller; try done.
  intros hyd o q w _ _. simpl. by rewrite last_snoc.
Qed.

(** X2: in every run of the hook, past the guard or not, [abortRef] holds
    the controller whose signal went to the most recent transport call,
    and nothing before the first call.  So [abort()] signals that call
    only (no earlier call still in flight can be aborted), and changes
    neither the state nor the calls in flight. *)
Theorem abort_reaches_latest_only (evs : list Event) (options : QueryOptions) :
  let w := run evs (init options) in
  abortRef w = signal <$> last (fetches w) ∧
  aborted (abort w)
  = (aborted w ++ option_list (signal <$> last (fetches w)))%list ∧
  state (abort w) = state w ∧ pending (abort w) = pending w.
Proof.
  intros w. pose proof (latest_controller_run evs options) as H.
  fold w in H. unfold latest_controller in H. split; [done|].
  rewrite <- H. unfold abort. destruct (abortRef w); simpl; [done|].
  by rewrite app_nil_r.
Qed.

(** ** Data, [hasFetched] and the IDLE status *)

Lemma succeeds_not_undefined d : succeeds d = true → d ≠ JUndefined.
Proof. by intros H ->. Qed.

Lemma state_coherent_run evs options :
  state_coherent (run evs (init options)).
Proof.
  apply inv_run; unfold state_coherent; simpl; try done.
  - intros hyd _ _ w _ (_ & Hf & Hu). rewrite queryReducer_eq.
    by destruct hyd.
  - intros m w _ (_ & Hf & Hu). by rewrite queryReducer_eq.
  - intros hyd d w _ Hd _. rewrite queryReducer_eq.
    pose proof (succeeds_not_null d Hd) as Hn.
    pose proof (succeeds_not_undefined d Hd) as Hu.
    by destruct hyd.
Qed.

(** X3: in every run, [hasFetched] is true exactly when the stored data is
    not [null]; the stored data is never [undefined]. *)
Theorem hasFetched_iff_data (evs : list Event) (options : QueryOptions) :
  let w := run evs (init options) in
  (hasFetched w = true ↔ data (state w) ≠ JNull) ∧
  data (state w) ≠ JUndefined.
Proof. intros w. by destruct (state_coherent_run evs options) as (_ & H & Hu). Qed.

(** X4: in every run, whenever the status is IDLE the whole state is the
    initial one (data and error [null]) and [hasFetched] is false. *)
Theorem idle_is_initial (evs : list Event) (options : QueryOptions) :
  let w := run evs (init options) in
  status (state w) = IDLE → state w = initialState ∧ hasFetched w = false.
Proof. intros w. by destruct (state_coherent_run evs options) as (H & _). Qed.

Lemma idle_is_initial_witness :
  let w := run [EvEnter None; EvSettle 0 (Resolve (counted 3)); EvReset]
               (init no_options) in
  state w = initialState ∧ hasFetched w = false.
Proof.
  apply (idle_is_initial
           [EvEnter None; EvSettle 0 (Resolve (counted 3)); EvReset]
           no_options).
  reflexivity.
Defined.

(** ** After the cleanup *)

(** X5: once the cleanup has run, nothing that happens afterwards (late
    settlements, further requests, resets, renders) changes the state,
    dispatches an action, calls the transport, sets [hasFetched] or makes
    [request()] reject. *)
Theorem cleanup_freezes (evs : list Event) (w : World) :
  let w' := run evs (cleanup w) in
  mounted w' = false ∧ state w' = state w ∧ history w' = history w ∧
  fetches w' = fetches w ∧ hasFetched w' = hasFetched w ∧
  rejected w' = rejected w.
Proof.
  intros w'. subst w'.
  set (P := fun x =>
    mounted x = false ∧ state x = state w ∧ history x = history w ∧
    fetches x = fetches w ∧ hasFetched x = hasFetched w ∧
    rejected x = rejected w).
  apply (inv_run P); unfold P;
    try (intros; simpl in *; intuition congruence).
  unfold cleanup, abort. destruct (abortRef w); by repeat split.
Qed.

(** ** Through the hook's own entry points *)

Lemma untouched_step w ev :
  is_public ev = true → untouched w → untouched (step w ev).
Proof.
  intros Hp (Hs & Hf & Hpe & Hh & Ha & Hab & Hi).
  destruct ev; simpl in *; try done.
  - unfold request. by rewrite guard_never_passes.
  - unfold settle. by rewrite Hpe.
  - unfold abort. by rewrite Ha.
  - unfold reset, abort. rewrite Ha. destruct (mounted w); [|done].
    repeat split; simpl; try done.
    apply Forall_app. split; [done|]. by repeat constructor.
  - unfold cleanup, abort. by rewrite Ha.
Qed.

(** X1: a hook that is mounted (the mount effect included, whatever
    [skipInitialRequest] says) and then driven through [request], [abort],
    [reset], renders and the cleanup only, never calls the transport, never
    has a call in flight and never leaves the initial state: the guard of
    [request] stops every request, the initial one too. *)
Theorem public_api_never_fetches (evs : list Event) (options : QueryOptions) :
  forallb is_public evs = true →
  let w := run evs (mounted_hook options) in
  state w = initialState ∧ fetches w = [] ∧ pending w = [] ∧
  hasFetched w = false ∧ aborted w = [] ∧ Forall (eq IDLE) (history w).
Proof.
  intros Hp w.
  assert (H0 : untouched (mounted_hook options)).
  { unfold mounted_hook, mount_effect, request.
    rewrite guard_never_passes.
    destruct (skipInitialRequest _) as [| |[|]]; by repeat split. }
  assert (H : untouched w); [|by destruct H as (? & ? & ? & ? & ? & ? & ?)].
  subst w. revert H0 Hp. generalize (mounted_hook options).
  induction evs as [|ev evs IH]; intros x Hx Hp; [done|].
  simpl in Hp. apply andb_true_iff in Hp as [Hev Hp].
  simpl. apply IH; [by apply untouched_step|done].
Qed.

Lemma public_api_never_fetches_witness :
  let w := run [EvRequest IDLE (Some (page 2)); EvAbort; EvReset;
                EvRequest ERROR None; EvRender]
               (mounted_hook projects_options) in
  state w = initialState ∧ fetches w = [] ∧ pending w = [] ∧
  hasFetched w = false ∧ aborted w = [] ∧ Forall (eq IDLE) (history w).
Proof.
  apply (public_api_never_fetches
           [EvRequest IDLE (Some (page 2)); EvAbort; EvReset;
            EvRequest ERROR None; EvRender] projects_options).
  reflexivity.
Defined.

(** ** [reset] while a call is in flight *)

Lemma reset_mounted w :
  mounted w = true →
  state (reset w) = initialState ∧ hasFetched (reset w) = false ∧
  mounted (reset w) = true ∧ pending (reset w) = pending w.
Proof.
  intros Hm. unfold reset, abort.
  destruct (abortRef w); simpl; rewrite Hm; simpl;
    by rewrite ?queryReducer_eq.
Qed.

(** X6: [reset()] on a mounted hook restores the initial state and clears
    [hasFetched], but leaves the calls in flight: a resolution arriving
    afterwards stores its payload and sets [hasFetched] again, and a
    rejection arriving afterwards dispatches ERROR with its message. *)
Theorem reset_does_not_cancel (w : World) (c : InFlight) (d e m : jsval) :
  mounted w = true →
  find_call (token c) (pending w) = Some c →
  succeeds d = true →
  get_prop e "message" = Some m →
  state (reset w) = initialState ∧ hasFetched (reset w) = false ∧
  (let w' := settle (token c) (Resolve d) (reset w) in
   data (state w') = d ∧ error (state w') = JNull ∧ hasFetched w' = true) ∧
  (let w' := settle (token c) (Reject e) (reset w) in
   data (state w') = JNull ∧ error (state w') = m ∧ hasFetched w' = false ∧
   ∃ hs, history w' = (history (reset w) ++ ERROR :: hs)%list).
Proof.
  intros Hm Hc Hd He.
  destruct (reset_mounted w Hm) as (Hs & Hf & Hm' & Hp).
  rewrite <- Hp in Hc. split; [done|]. split; [done|]. split.
  - cbv zeta.
    destruct (settle_success _ d _ c Hm' Hc Hd) as (H1 & H2 & _ & _).
    split; [done|]. split; [|done].
    rewrite (settle_found _ _ _ _ Hc).
    rewrite call_settled_success by done.
    destruct (withHydrate c).
    + simpl. by rewrite ?queryReducer_eq, Hs.
    + match goal with |- context [after_primary ?o ?x] =>
        destruct (after_primary_frame o x) as (_ & -> & _) end.
      simpl. by rewrite ?queryReducer_eq, Hs.
  - cbv zeta. rewrite (settle_found _ _ _ _ Hc).
    set (w0 := set_pending _ (reset w)).
    assert (Hm0 : mounted w0 = true) by done.
    assert (Hcs : call_settled (withHydrate c) (Reject e) w0
                  = (dispatch (mkAction A_ERROR m) w0, None)).
    { simpl. unfold on_catch. by rewrite Hm0, He. }
    rewrite Hcs. destruct (withHydrate c).
    + simpl. rewrite ?queryReducer_eq. simpl. rewrite Hs, Hf. eauto.
    + destruct (after_primary_frame (req_options c)
                  (dispatch (mkAction A_ERROR m) w0))
        as (H1 & H2 & _ & H4 & _ & [hs Hh] & _).
      rewrite H1, H2, H4, Hh. simpl. rewrite ?queryReducer_eq. simpl.
      rewrite Hs, Hf, <- app_assoc. eauto.
Qed.

Lemma reset_does_not_cancel_witness :
  let w := request_block None (init no_options) in
  state (reset w) = initialState ∧ hasFetched (reset w) = false ∧
  (let w' := settle 0 (Resolve (counted 3)) (reset w) in
   data (state w') = counted 3 ∧ error (state w') = JNull ∧
   hasFetched w' = true) ∧
  (let w' := settle 0 (Reject boom) (reset w) in
   data (state w') = JNull ∧ error (state w') = JStr "boom" ∧
   hasFetched w' = false ∧
   ∃ hs, history w' = (history (reset w) ++ ERROR :: hs)%list).
Proof.
  apply (reset_does_not_cancel (request_block None (init no_options))
           (mkInFlight 0 false None) (counted 3) boom (JStr "boom"));
    reflexivity.
Defined.

(** ** Payloads at the edge *)

(** X7: on a mounted hook a transport that resolves with [null] or
    [undefined] ends in ERROR, the error being the message of the
    TypeError raised by reading [.error]; one that resolves with a boolean,
    a number or a string succeeds, and that primitive becomes the data. *)
Theorem payload_edges (hyd : bool) (w : World) :
  mounted w = true →
  (∀ d, d = JNull ∨ d = JUndefined →
     ∃ msg, call_settled hyd (Resolve d) w
            = (dispatch (mkAction A_ERROR (JStr msg)) w, None)) ∧
  (∀ d, (∃ b, d = JBool b) ∨ (∃ z, d = JNum z) ∨ (∃ s, d = JStr s) →
     call_settled hyd (Resolve d) w
     = (dispatch (mkAction (if hyd then A_HYDRATED else A_LOADED) d)
          (set_hasFetched true w), None)).
Proof.
  intros Hm. split.
  - intros d [-> | ->]; eexists; simpl; unfold on_catch; by rewrite Hm.
  - intros d [[b ->]|[[z ->]|[s ->]]]; simpl; by rewrite Hm.
Qed.

Lemma payload_edges_witness :
  let w := request_block None (init no_options) in
  (∀ d, d = JNull ∨ d = JUndefined →
     ∃ msg, call_settled false (Resolve d) w
            = (dispatch (mkAction A_ERROR (JStr msg)) w, None)) ∧
  (∀ d, (∃ b, d = JBool b) ∨ (∃ z, d = JNum z) ∨ (∃ s, d = JStr s) →
     call_settled false (Resolve d) w
     = (dispatch (mkAction A_LOADED d) (set_hasFetched true w), None)).
Proof.
  apply (payload_edges false (request_block None (init no_options))).
  reflexivity.
Defined.

(** ** What changes [error] and [hasFetched] *)

Lemma call_error_frame hyd options w :
  error (state (fst (call hyd options w))) = error (state w).
Proof. by destruct (call_frame hyd options w) as (_ & H & _). Qed.

(** X8: the stored error changes only through [reset()] or through a
    settlement whose try block throws.  A new request, a successful
    settlement, an abort or a render leave a stale error in place. *)
Theorem error_changes_on_failure_or_reset (w : World) (ev : Event) :
  error (state (step w ev)) ≠ error (state w) →
  ev = EvReset ∨ ∃ tok r e, ev = EvSettle tok r ∧ thrown r = Some e.
Proof.
  intros Hn. destruct ev; simpl in Hn.
  - exfalso. apply Hn. unfold request. by rewrite guard_never_passes.
  - exfalso. apply Hn. unfold request_block.
    pose proof (call_frame false options w) as (_ & H1 & _).
    destruct (call false options w) as [w1 [|]]; simpl in H1; [done|].
    destruct (after_primary_frame options w1) as (_ & H2 & _). congruence.
  - by destruct Hn.
  - right. exists tok, r.
    destruct (thrown r) as [e|] eqn:Ht; [by eauto|].
    exfalso. apply Hn. unfold settle.
    destruct (find_call tok (pending w)) as [c|]; [|done].
    set (w0 := set_pending (drop_call tok (pending w)) w).
    assert (Hs : ∃ d, r = Resolve d ∧ succeeds d = true).
    { destruct r as [d|e]; [|done]. exists d. split; [done|].
      simpl in Ht. unfold succeeds.
      destruct (get_prop d "error") as [x|]; [|done].
      by destruct (truthy x). }
    destruct Hs as (d & -> & Hd).
    assert (Hcs : error (state (fst (call_settled (withHydrate c)
                                       (Resolve d) w0)))
                  = error (state w) ∧
                  snd (call_settled (withHydrate c) (Resolve d) w0) = None).
    { destruct (mounted w0) eqn:Hm0.
      - rewrite call_settled_success by done. simpl.
        rewrite ?queryReducer_eq. by destruct (withHydrate c).
      - by rewrite unmounted_call_settled. }
    destruct Hcs as [He Hnone].
    destruct (call_settled _ _ _) as [w1 o]; simpl in He, Hnone. subst o.
    destruct (withHydrate c); [done|].
    destruct (after_primary_frame (req_options c) w1) as (_ & H2 & _).
    congruence.
  - exfalso. apply Hn. unfold abort. by destruct (abortRef w).
  - by left.
  - by destruct Hn.
  - exfalso. apply Hn. unfold cleanup, abort. by destruct (abortRef w).
Qed.

Lemma error_changes_on_failure_or_reset_witness :
  EvSettle 0 (Reject boom) = EvReset ∨
  ∃ tok r e, EvSettle 0 (Reject boom) = EvSettle tok r ∧ thrown r = Some e.
Proof.
  apply (error_changes_on_failure_or_reset
           (request_block None (init no_options))
           (EvSettle 0 (Reject boom))).
  simpl. discriminate.
Defined.

Lemma call_settled_hasFetched hyd r w :
  hasFetched w = true → hasFetched (fst (call_settled hyd r w)) = true.
Proof.
  intros H. unfold call_settled, on_catch.
  destruct r as [d|e]; simpl.
  - destruct (get_prop d "error") as [x|]; simpl;
      [destruct (truthy x)|]; destruct (mounted w); simpl; try done.
    by destruct (get_prop x "message").
  - destruct (mounted w); simpl; [|done].
    by destruct (get_prop e "message").
Qed.

(** X9: once [hasFetched] is true, [reset()] is the only thing that makes
    it false again. *)
Theorem hasFetched_is_sticky (w : World) (ev : Event) :
  hasFetched w = true → hasFetched (step w ev) = false → ev = EvReset.
Proof.
  intros Ht Hf. destruct ev; simpl in Hf; try done.
  - unfold request in Hf. rewrite guard_never_passes in Hf. congruence.
  - unfold request_block in Hf.
    pose proof (call_frame false options w) as (_ & _ & _ & H1 & _).
    destruct (call false options w) as [w1 [|]]; simpl in H1; [congruence|].
    destruct (after_primary_frame options w1) as (_ & _ & _ & H2 & _).
    congruence.
  - congruence.
  - exfalso. unfold settle in Hf.
    destruct (find_call tok (pending w)) as [c|]; [|congruence].
    set (w0 := set_pending (drop_call tok (pending w)) w) in Hf.
    assert (Hh : hasFetched (fst (call_settled (withHydrate c) r w0)) = true)
      by by apply call_settled_hasFetched.
    destruct (call_settled _ _ _) as [w1 [e|]]; simpl in Hh, Hf.
    + congruence.
    + destruct (withHydrate c); [congruence|].
      destruct (after_primary_frame (req_options c) w1)
        as (_ & _ & _ & H2 & _). congruence.
  - unfold abort in Hf. destruct (abortRef w); simpl in Hf; congruence.
  - congruence.
  - unfold cleanup, abort in Hf. destruct (abortRef w); simpl in Hf; congruence.
Qed.

Lemma hasFetched_is_sticky_witness :
  EvReset = EvReset.
Proof.
  apply (hasFetched_is_sticky
           (settle 0 (Resolve (counted 3))
              (request_block None (init no_options)))
           EvReset); reflexivity.
Defined.

(** ** More on merging *)

Lemma param_spread k a b :
  param k (Some (spread a b))
  = match param k b with Some v => Some v | None => param k a end.
Proof.
  unfold spread. simpl. rewrite lookup_union.
  destruct b as [mb|], a as [ma|]; simpl; rewrite ?lookup_empty;
    repeat match goal with
           | |- context [?m !! k] => destruct (m !! k)
           end; done.
Qed.

Lemma param_merge (stored incoming : QueryOptions) (k : string) :
  param k (read (query (merge stored incoming)))
  = match param k (read (query incoming)) with
    | Some v => Some v
    | None => param k (read (query stored))
    end ∧
  param k (hydrate_query (merge stored incoming))
  = match param k (hydrate_query incoming) with
    | Some v => Some v
    | None => param k (hydrate_query stored)
    end.
Proof.
  split.
  - unfold merge. simpl. apply param_spread.
  - rewrite hydrate_query_merge.
    destruct (hydrate_query incoming) as [mb|],
             (hydrate_query stored) as [ma|]; cbn [defined orb];
      by try apply param_spread.
Qed.

(** X10: the merged query holds, for every key, the incoming value when
    the incoming query has the key and the stored value otherwise; the
    same for the hydrate query. *)
Theorem merge_lookup (stored incoming : QueryOptions) (k : string) :
  param k (read (query (merge stored incoming)))
  = match param k (read (query incoming)) with
    | Some v => Some v
    | None => param k (read (query stored))
    end ∧
  param k (hydrate_query (merge stored incoming))
  = match param k (hydrate_query incoming) with
    | Some v => Some v
    | None => param k (hydrate_query stored)
    end.
Proof. apply param_merge. Qed.

(** X11: merging is associative: two [updateOptions] calls in a row store
    what one call with the two option records merged stores. *)
Theorem merge_assoc (a b c : QueryOptions) :
  merge (merge a b) c = merge a (merge b c).
Proof.
  assert (Hsp : ∀ x y z : option (gmap string jsval),
            spread (Some (spread x y)) z = spread x (Some (spread y z))).
  { intros x y z. unfold spread. simpl. by rewrite (assoc_L (∪)). }
  assert (Hhq : hydrate_query (merge (merge a b) c)
                = hydrate_query (merge a (merge b c))).
  { rewrite !hydrate_query_merge.
    destruct (hydrate_query c) as [mc|], (hydrate_query b) as [mb|],
             (hydrate_query a) as [ma|]; simpl; try done;
      f_equal; unfold spread; simpl;
      by rewrite ?(assoc_L (∪)), ?(left_id_L ∅ (∪)), ?(right_id_L ∅ (∪)). }
  assert (Hg : given (hydrate (merge (merge a b) c))
               = given (hydrate (merge a (merge b c)))).
  { unfold merge. simpl.
    by destruct (given (hydrate c)), (given (hydrate b)),
                (given (hydrate a)). }
  assert (Hshape : ∀ x y, hydrate (merge x y)
            = if given (hydrate (merge x y))
              then Has {| hquery := match hydrate_query (merge x y) with
                                    | Some m => Has m
                                    | None => Undef
                                    end |}
              else Undef).
  { intros x y. rewrite hydrate_query_merge. unfold merge at 1 2. simpl.
    destruct (given (hydrate y) || given (hydrate x)); simpl; [|done].
    by destruct (defined (hydrate_query y) || defined (hydrate_query x)). }
  assert (Hh : hydrate (merge (merge a b) c) = hydrate (merge a (merge b c))).
  { by rewrite (Hshape (merge a b) c), (Hshape a (merge b c)), Hg, Hhq. }
  assert (Hq : query (merge (merge a b) c) = query (merge a (merge b c))).
  { unfold merge. simpl. by rewrite Hsp. }
  assert (Hs : skipInitialRequest (merge (merge a b) c)
               = skipInitialRequest (merge a (merge b c))).
  { unfold merge. simpl.
    by destruct (skipInitialRequest c), (skipInitialRequest b). }
  destruct (merge (merge a b) c), (merge a (merge b c)).
  simpl in *. by subst.
Qed.

(** ** The hook's own argument is never lost *)

Lemma extends_refl a : extends a a.
Proof. by repeat split. Qed.

Lemma extends_trans a b c : extends a b → extends b c → extends a c.
Proof.
  intros (H1 & H2 & H3) (H1' & H2' & H3'). repeat split; auto.
Qed.

Lemma extends_merge a b : extends a (merge a b).
Proof.
  repeat split.
  - intros k [v Hv]. destruct (param_merge a b k) as [H _].
    rewrite H, Hv. by destruct (param k (read (query b))).
  - unfold merge. simpl. intros ->. by rewrite orb_true_r.
  - intros k [v Hv]. destruct (param_merge a b k) as [_ H].
    rewrite H, Hv. by destruct (param k (hydrate_query b)).
Qed.

(** X12: in every run the stored options hold everything the hook's own
    argument holds: each key of its query, its hydrate object and each
    key of its hydrate query.  What requests and the transport merged in
    on top can go at the next render; the argument's own entries never
    do. *)
Theorem options_extend_argument (evs : list Event) (options : QueryOptions) :
  let w := run evs (init options) in
  hookOptions w = options ∧ extends options (optionsRef w).
Proof.
  intros w. subst w.
  set (P := fun x => hookOptions x = options ∧ extends options (optionsRef x)).
  apply (inv_run P); unfold P; simpl;
    try (intros;
         match goal with
         | H : _ ∧ _ |- _ => destruct H as [Hk He]
         end;
         split; [done|]; rewrite ?Hk;
         first [ done | apply extends_refl
               | eapply extends_trans; [exact He|apply extends_merge] ]).
  split; [done|apply extends_refl].
Qed.

(** ** A render between declaration and settlement *)

(** X13: a render resets the stored options to the hook's own argument.
    If one comes after the transport has declared its options and before
    the primary call settles, and neither the hook's argument nor the
    request's options carry a hydrate query, the declaration is lost: the
    cycle ends at LOADED without a hydration fetch. *)
Theorem render_discards_declared (specs : list QueryOptions) (w : World)
    (c : InFlight) (d : jsval) :
  mounted w = true →
  find_call (token c) (pending w) = Some c →
  withHydrate c = false →
  succeeds d = true →
  hydrate_query (hookOptions w) = None →
  hydrate_query (default no_options (req_options c)) = None →
  let w' := settle (token c) (Resolve d) (render (declare specs w)) in
  fetches w' = fetches w ∧ history w' = (history w ++ [LOADED])%list ∧
  hydrate_query (optionsRef w') = None.
Proof.
  intros Hm Hc Hh Hd Hk Ho w'. subst w'.
  rewrite declare_eq.
  set (w0 := render _).
  assert (H0 : mounted w0 = true ∧ pending w0 = pending w ∧
               hookOptions w0 = hookOptions w ∧ fetches w0 = fetches w ∧
               history w0 = history w) by done.
  destruct H0 as (Hm0 & Hp0 & Hk0 & Hf0 & Hh0). clearbody w0.
  rewrite <- Hp0 in Hc.
  rewrite (settle_primary_success _ _ _ _ Hm0 Hc Hh Hd).
  rewrite after_primary_dispatch by done.
  assert (Hdue : hydrate_query
                   (merge (hookOptions w) (default no_options (req_options c)))
                 = None).
  { by rewrite hydrate_query_merge, Hk, Ho. }
  unfold hydration_wanted. simpl. rewrite Hk0, Hdue. simpl.
  rewrite andb_false_r.
  destruct (given (hydrate (hookOptions w))); simpl;
    by rewrite ?Hk0, ?Hdue, ?Hk, Hf0, Hh0, ?queryReducer_eq.
Qed.

Lemma render_discards_declared_witness :
  let w := request_block None (init projects_options) in
  let w' := settle 0 (Resolve (counted 120))
              (render (declare [ids_options] w)) in
  fetches w' = fetches w ∧ history w' = (history w ++ [LOADED])%list ∧
  hydrate_query (optionsRef w') = None.
Proof.
  apply (render_discards_declared [ids_options]
           (request_block None (init projects_options))
           (mkInFlight 0 false None) (counted 120)); reflexivity.
Defined.

(** ** The earlier revision over runs *)

Lemma legacy_call_frame hyd options w :
  let w' := fst (Legacy.call hyd options w) in
  Legacy.mounted w' = Legacy.mounted w ∧
  Legacy.data (Legacy.state w') = Legacy.data (Legacy.state w) ∧
  Legacy.hasFetched w' = Legacy.hasFetched w ∧
  (Legacy.status (Legacy.state w) ≠ Legacy.LOADING →
   Legacy.status (Legacy.state w') ≠ Legacy.LOADING).
Proof.
  cbv zeta. unfold Legacy.call. simpl.
  destruct (Legacy.mounted w) eqn:Hm; simpl; [|by rewrite Hm].
  by rewrite ?Hm, ?legacy_queryReducer_eq.
Qed.

Lemma legacy_after_primary_frame options w :
  let w' := Legacy.after_primary options w in
  Legacy.mounted w' = Legacy.mounted w ∧
  Legacy.data (Legacy.state w') = Legacy.data (Legacy.state w) ∧
  Legacy.hasFetched w' = Legacy.hasFetched w ∧
  (Legacy.status (Legacy.state w) ≠ Legacy.LOADING →
   Legacy.status (Legacy.state w') ≠ Legacy.LOADING).
Proof.
  cbv zeta. unfold Legacy.after_primary.
  destruct (given _); [apply legacy_call_frame|done].
Qed.

Lemma legacy_call_settled_alive hyd r w :
  legacy_alive w → legacy_alive (fst (Legacy.call_settled hyd r w)).
Proof.
  intros [Hm Hs]. unfold Legacy.call_settled. destruct r as [d|e]; [|done].
  rewrite Hm. simpl. split; [done|].
  rewrite ?legacy_queryReducer_eq. by destruct hyd.
Qed.

Lemma legacy_step_alive w ev : legacy_alive w → legacy_alive (Legacy.step w ev).
Proof.
  intros [Hm Hs]. destruct ev; simpl.
  - unfold Legacy.request. by rewrite legacy_guard_never_passes.
  - unfold Legacy.request_block.
    pose proof (legacy_call_frame false options w) as (H1 & _ & _ & H4).
    destruct (Legacy.call false options w) as [w1 [|]]; simpl in H1, H4.
    + split; [congruence|auto].
    + destruct (legacy_after_primary_frame options w1) as (H1' & _ & _ & H4').
      split; [congruence|auto].
  - done.
  - unfold Legacy.settle.
    destruct (Legacy.find_call tok (Legacy.pending w)) as [c|]; [|done].
    pose proof (legacy_call_settled_alive (Legacy.withHydrate c) r
      (Legacy.set_pending (Legacy.drop_call tok (Legacy.pending w)) w))
      as [H1 H2]; [done|].
    destruct (Legacy.call_settled _ _ _) as [w1 [e|]]; simpl in H1, H2.
    + done.
    + destruct (Legacy.withHydrate c); [done|].
      destruct (legacy_after_primary_frame (Legacy.req_options c) w1)
        as (H1' & _ & _ & H4').
      split; [congruence|auto].
  - unfold Legacy.abort. by destruct (Legacy.abortRef w).
  - unfold Legacy.reset, Legacy.abort.
    destruct (Legacy.abortRef w); simpl; rewrite Hm; simpl;
      by rewrite ?legacy_queryReducer_eq.
  - done.
  - unfold Legacy.cleanup, Legacy.abort. by destruct (Legacy.abortRef w).
Qed.

Lemma legacy_run_alive evs w : legacy_alive w → legacy_alive (Legacy.run evs w).
Proof.
  revert w. induction evs as [|ev evs IH]; intros w Hw; [done|].
  simpl. by apply IH, legacy_step_alive.
Qed.

(** X15: in the earlier revision no run ever reaches the status LOADING,
    so the [loading] flag of the returned snapshot is false throughout. *)
Theorem legacy_never_loading (evs : list Legacy.Event)
    (options : Legacy.QueryOptions) :
  let w := Legacy.run evs (Legacy.init options) in
  Legacy.status (Legacy.state w) ≠ Legacy.LOADING ∧
  Legacy.loading (Legacy.facade w) = false.
Proof.
  intros w. destruct (legacy_run_alive evs (Legacy.init options)) as [_ H];
    [done|].
  fold w in H. split; [done|]. unfold Legacy.facade. simpl.
  by destruct (Legacy.status (Legacy.state w)).
Qed.

(** X16: in the earlier revision [mounted] stays true in every run, the
    cleanup included, so the handler of a resolution that arrives after
    the cleanup is not stopped by its mounted test: it goes on to set
    [hasFetched]. *)
Theorem legacy_cleanup_is_no_teardown (evs : list Legacy.Event)
    (options : Legacy.QueryOptions) (c : Legacy.InFlight) (d : jsval) :
  let w := Legacy.run evs (Legacy.init options) in
  Legacy.mounted w = true ∧
  (Legacy.find_call (Legacy.token c) (Legacy.pending w) = Some c →
   let w' := Legacy.settle (Legacy.token c) (Resolve d) (Legacy.cleanup w) in
   Legacy.hasFetched w' = true ∧ Legacy.mounted w' = true).
Proof.
  intros w. destruct (legacy_run_alive evs (Legacy.init options)) as [Hm _];
    [done|].
  fold w in Hm. split; [done|]. intros Hc. cbv zeta.
  assert (Hw : Legacy.mounted (Legacy.cleanup w) = true ∧
               Legacy.pending (Legacy.cleanup w) = Legacy.pending w).
  { unfold Legacy.cleanup, Legacy.abort. by destruct (Legacy.abortRef w). }
  destruct Hw as [Hm' Hp']. clearbody w.
  unfold Legacy.settle. rewrite Hp', Hc. unfold Legacy.call_settled.
  simpl. rewrite Hm'. simpl. destruct (Legacy.withHydrate c); [done|].
  match goal with |- context [Legacy.after_primary ?o ?x] =>
    by destruct (legacy_after_primary_frame o x) as (-> & _ & -> & _) end.
Qed.

Lemma legacy_cleanup_is_no_teardown_witness :
  let w := Legacy.run [Legacy.EvEnter None] (Legacy.init Legacy.no_options) in
  Legacy.mounted w = true ∧
  (Legacy.find_call 0 (Legacy.pending w)
   = Some (Legacy.mkInFlight 0 false None) →
   let w' := Legacy.settle 0 (Resolve (counted 3)) (Legacy.cleanup w) in
   Legacy.hasFetched w' = true ∧ Legacy.mounted w' = true).
Proof.
  apply (legacy_cleanup_is_no_teardown [Legacy.EvEnter None]
           Legacy.no_options (Legacy.mkInFlight 0 false None) (counted 3)).
Defined.

(** X17: in the earlier revision, as soon as a request past the guard has
    started its primary fetch on a mounted hook, the snapshot reports
    [loaded] (and [hydrated] when the hook's argument has no hydrate
    object), with data and [hasFetched] still what they were. *)
Theorem legacy_loaded_while_fetching (options : option Legacy.QueryOptions)
    (w : Legacy.World) :
  Legacy.mounted w = true →
  let w' := Legacy.request_block options w in
  Legacy.loaded (Legacy.facade w') = true ∧
  Legacy.snap_data (Legacy.facade w') = Legacy.data (Legacy.state w) ∧
  Legacy.snap_hasFetched (Legacy.facade w') = Legacy.hasFetched w ∧
  (given (Legacy.hydrate (Legacy.hookOptions w)) = false →
   Legacy.hydrated (Legacy.facade w') = true).
Proof.
  intros Hm w'. subst w'. unfold Legacy.request_block, Legacy.call. simpl.
  rewrite Hm. simpl. unfold Legacy.facade. simpl.
  rewrite ?legacy_queryReducer_eq. simpl. repeat split. by intros ->.
Qed.

Lemma legacy_loaded_while_fetching_witness :
  let w' := Legacy.request_block None (Legacy.init Legacy.no_options) in
  Legacy.loaded (Legacy.facade w') = true ∧
  Legacy.snap_data (Legacy.facade w') = JNull ∧
  Legacy.snap_hasFetched (Legacy.facade w') = false ∧
  (given (Legacy.hydrate Legacy.no_options) = false →
   Legacy.hydrated (Legacy.facade w') = true).
Proof.
  apply (legacy_loaded_while_fetching None (Legacy.init Legacy.no_options)).
  reflexivity.
Defined.

(** ** Transitions and transport calls in lockstep *)

Lemma announced_snoc h s :
  announced (h ++ [s])
  = (announced h ++ match s with
                    | LOADING => [false]
                    | HYDRATING => [true]
                    | _ => []
                    end)%list.
Proof. unfold announced. rewrite omap_app. by destruct s. Qed.

Lemma in_lockstep_run evs options : in_lockstep (run evs (init options)).
Proof.
  apply inv_run; unfold in_lockstep; simpl; try done.
  - intros hyd _ q w _ H. rewrite map_app, announced_snoc, H.
    rewrite ?queryReducer_eq. by destruct hyd.
  - intros m w _ H. rewrite announced_snoc, H, ?queryReducer_eq. simpl.
    by rewrite app_nil_r.
  - intros hyd d w _ _ H. rewrite announced_snoc, H, ?queryReducer_eq.
    destruct hyd; simpl; by rewrite app_nil_r.
  - intros w _ H. rewrite announced_snoc, H, ?queryReducer_eq. simpl.
    by rewrite app_nil_r.
Qed.

(** X14: in every run the transport calls and the LOADING / HYDRATING
    transitions go together: the [hydrate] flags of the calls made, in
    order, are the LOADING ([false]) and HYDRATING ([true]) entries of the
    status history, and every call has a controller of its own. *)
Theorem fetches_in_lockstep (evs : list Event) (options : QueryOptions) :
  let w := run evs (init options) in
  map hydrate_flag (fetches w) = announced (history w) ∧
  length (fetches w) = controllers w.
Proof.
  intros w. split; [apply in_lockstep_run|].
  subst w. apply (inv_run (fun x => length (fetches x) = controllers x));
    simpl; try done.
  intros hyd _ q x _ H. rewrite length_app. simpl. lia.
Qed.

(** ** What a request delivers *)

Lemma mounted_hook_init options : mounted_hook options = init options.
Proof.
  unfold mounted_hook, mount_effect, request. rewrite guard_never_passes.
  by destruct (skipInitialRequest _) as [| |[|]].
Qed.

Lemma answers_find_nothing (answers : list (nat * Settlement)) w :
  pending w = [] →
  run (map (fun a => EvSettle a.1 a.2) answers) w = w.
Proof.
  intros Hp. induction answers as [|[tok r] answers IH]; [done|].
  change (run (map (fun a => EvSettle a.1 a.2) answers) (settle tok r w) = w).
  assert (Hs : settle tok r w = w) by (unfold settle; by rewrite Hp).
  by rewrite Hs.
Qed.

Lemma request_then_answers (options : QueryOptions)
    (captured : QueryStatus) (reqopts : option QueryOptions)
    (answers : list (nat * Settlement)) :
  run (EvRequest captured reqopts :: map (fun a => EvSettle a.1 a.2) answers)
      (mounted_hook options)
  = init options.
Proof.
  rewrite mounted_hook_init.
  change (run (EvRequest captured reqopts :: ?l) ?x)
    with (run l (request captured reqopts x)).
  unfold request. rewrite guard_never_passes.
  by rewrite answers_find_nothing.
Qed.

(** C4 (fails on the code): a hook mounted with any options, a non-empty
    hydrate query among them or not, and asked through [request] from any
    status: whatever the transport would answer, and however often, the
    status passes through nothing, so not through LOADING, LOADED,
    HYDRATING and HYDRATED.  No action is dispatched, the state stays the
    initial one, the data stays [null] and [hasFetched] stays false. *)
Theorem request_passes_through_nothing (options : QueryOptions)
    (captured : QueryStatus) (reqopts : option QueryOptions)
    (answers : list (nat * Settlement)) :
  let w := run (EvRequest captured reqopts
                  :: map (fun a => EvSettle a.1 a.2) answers)
               (mounted_hook options) in
  history w = [] ∧
  history w ≠ [LOADING; LOADED; HYDRATING; HYDRATED] ∧
  state w = initialState ∧
  data (state w) = JNull ∧
  hasFetched w = false.
Proof.
  intros w. subst w. rewrite request_then_answers. by simpl.
Qed.

(** C7 (fails on the code): a hook mounted with any options and asked
    through [request] from any status: whatever the transport would
    answer, the transport is not called at all, so neither twice when the
    options hold a hydrate field nor exactly once when they hold none. *)
Theorem hydrate_field_makes_no_fetch (options : QueryOptions)
    (captured : QueryStatus) (reqopts : option QueryOptions)
    (answers : list (nat * Settlement)) :
  let w := run (EvRequest captured reqopts
                  :: map (fun a => EvSettle a.1 a.2) answers)
               (mounted_hook options) in
  fetches w = [] ∧
  length (fetches w) ≠ (if given (hydrate options) then 2 else 1).
Proof.
  intros w. subst w. rewrite request_then_answers. simpl.
  split; [done|]. by destruct (given _).
Qed.
